(** * apple_tts.py: the sample matcher of the Apple TTS training system

    A shallow embedding of [class AppleTTS] (src/apple_tts.py) and of the
    parts of Python's standard library it calls: the [str] methods
    [lower], [strip], [split] and [in]; IEEE-754 binary64 arithmetic for
    the scores; and [difflib.SequenceMatcher.ratio].

    Text is modelled as [list ascii], one element per code point, for code
    points below 256 (the Latin-1 range).  On that range [lower_char] and
    [is_space] agree with Python 3's [str.lower] and [str.isspace]. *)

From Stdlib Require Import ZArith Lia Ascii String Floats.SpecFloat.
From stdpp Require Import gmap strings list fin_maps sorting.

Abbreviation pystr := (list ascii).

(** A string literal as a Python [str]. *)
Definition str (s : string) : pystr := list_ascii_of_string s.

(** ** Python [str] methods *)

Module PyStr.

Definition code (c : ascii) : nat := nat_of_ascii c.

(** [str.isspace] on one code point below 256: TAB..CR, FS..US, SPACE,
    NEL (133) and NBSP (160). *)
Definition is_space (c : ascii) : bool :=
  let n := code c in
  ((9 <=? n) && (n <=? 13)) || ((28 <=? n) && (n <=? 32))
  || (n =? 133) || (n =? 160).

(** [str.lower] on one code point below 256: A..Z and the Latin-1 capitals
    192..222 (all but the multiplication sign 215) move up by 32. *)
Definition lower_char (c : ascii) : ascii :=
  let n := code c in
  if ((65 <=? n) && (n <=? 90))
     || ((192 <=? n) && (n <=? 222) && negb (n =? 215))
  then ascii_of_nat (n + 32) else c.

(** [s.lower()].  Below code point 256 the result has the length of [s];
    outside that range [str.lower] can lengthen a text, so no statement
    about [difflib] bounds the text before it is lower-cased. *)
Definition lower (s : pystr) : pystr := map lower_char s.

(** [s.lstrip()], [s.rstrip()] and [s.strip()] *)
Fixpoint lstrip (s : pystr) : pystr :=
  match s with
  | [] => []
  | c :: s' => if is_space c then lstrip s' else s
  end.

Definition rstrip (s : pystr) : pystr := rev (lstrip (rev s)).

Definition strip (s : pystr) : pystr := rstrip (lstrip s).

(** [s.split()]: the maximal runs of non-space characters, in order.
    [cur] holds the characters of the run being read, last one first. *)
Fixpoint split_go (cur : pystr) (s : pystr) : list pystr :=
  match s with
  | [] => match cur with [] => [] | _ => [rev cur] end
  | c :: s' =>
      if is_space c
      then match cur with
           | [] => split_go [] s'
           | _ => rev cur :: split_go [] s'
           end
      else split_go (c :: cur) s'
  end.

Definition split (s : pystr) : list pystr := split_go [] s.

(** [s.startswith(p)] *)
Fixpoint starts_with (p s : pystr) : bool :=
  match p, s with
  | [], _ => true
  | _ :: _, [] => false
  | x :: p', y :: s' => bool_decide (x = y) && starts_with p' s'
  end.

(** [q in s]: [q] occurs in [s] as a contiguous substring. *)
Fixpoint contains (q s : pystr) : bool :=
  starts_with q s ||
  match s with
  | [] => false
  | _ :: s' => contains q s'
  end.

(** [s.split(sep)] for a non-empty separator: cut at the occurrences of
    [sep], scanning left to right without overlap.  [skip] counts the
    characters of a separator just recognised that are still to be
    consumed; [cur] is the piece being read, last character first.
    (Python raises ValueError for an empty separator; the program only
    passes a literal one.) *)
Fixpoint split_sep_go (sep : pystr) (skip : nat) (cur : pystr) (s : pystr)
  : list pystr :=
  match s with
  | [] => [rev cur]
  | c :: s' =>
      match skip with
      | S k => split_sep_go sep k cur s'
      | 0 =>
          if starts_with sep s
          then rev cur :: split_sep_go sep (length sep - 1) [] s'
          else split_sep_go sep 0 (c :: cur) s'
      end
  end.

Definition split_sep (sep s : pystr) : list pystr := split_sep_go sep 0 [] s.

(** [s <= t] on strings: lexicographic by code point, the order used by
    [sorted] on a collection of [str]. *)
Fixpoint str_leb (s t : pystr) : bool :=
  match s, t with
  | [], _ => true
  | _ :: _, [] => false
  | x :: s', y :: t' =>
      (code x <? code y) || ((code x =? code y) && str_leb s' t')
  end.

Definition str_le (s t : pystr) : Prop := str_leb s t = true.

#[global] Instance str_le_dec : RelDecision str_le.
Proof. intros s t. unfold str_le. apply _. Defined.

End PyStr.

(** ** The corpus *)

(** One line of the metadata file: the keys of the JSON object that the
    program reads.  The duration is a JSON number read as a [float]. *)
Record sample := Sample {
  utterance_name : pystr;
  words : pystr;
  script_title : pystr;
  sentence_estimated_duration : spec_float;
  phone_sequence : pystr;
  transcription : pystr
}.

#[global] Instance spec_float_eq_dec : EqDecision spec_float.
Proof. solve_decision. Defined.

#[global] Instance sample_eq_dec : EqDecision sample.
Proof. solve_decision. Defined.

(** ** Python [float]: IEEE-754 binary64

    Python's [float] is the C double.  Its values and operations are the
    Standard Library's executable specification of binary64 (precision 53,
    exponent bound 1024, round to nearest even), so that a score computed
    here is the bit pattern CPython computes. *)

Module Float64.

Definition prec : Z := 53.
Definition emax : Z := 1024.

Abbreviation float := spec_float.

Definition add : float -> float -> float := SFadd prec emax.
Definition mul : float -> float -> float := SFmul prec emax.
Definition div : float -> float -> float := SFdiv prec emax.

(** [x < y] and [x <= y] on floats. *)
Definition ltb : float -> float -> bool := SFltb.
Definition leb : float -> float -> bool := SFleb.

(** [float(n)] for a Python [int] (round to nearest even beyond 2^53). *)
Definition of_Z (n : Z) : float := binary_normalize prec emax n 0 false.
Definition of_nat (n : nat) : float := of_Z (Z.of_nat n).

Definition zero : float := S754_zero false.

(** The literal [2.0]. *)
Definition two : float := S754_finite false 4503599627370496 (-51).

(** The literal [0.3]: the double nearest to 3/10,
    5404319552844595 * 2^-54 = 0x1.3333333333333p-2. *)
Definition c0_3 : float := S754_finite false 5404319552844595 (-54).

(** The literal [1.0]. *)
Definition one : float := S754_finite false 4503599627370496 (-52).

End Float64.

(** ** [difflib.SequenceMatcher]

    The parts of CPython's [difflib] behind
    [SequenceMatcher(None, a, b).ratio()]: [__chain_b],
    [find_longest_match], [get_matching_blocks], [ratio] and
    [_calculate_ratio], with [isjunk=None] and the default [autojunk=True].
    Indices are [nat]; the two places where Python's integer expression
    could go below zero are written so that they agree with it
    ([j2len_get_pred] and the [S i - k] of [inner_loop]). *)

Module Difflib.

(** [Match(a=i, b=j, size=k)] *)
Abbreviation block := (nat * nat * nat)%type.

Definition size_of (m : block) : nat := m.2.

(** A pending region [(alo, ahi, blo, bhi)] of [get_matching_blocks]. *)
Abbreviation region := (nat * nat * nat * nat)%type.

(** [j2lenget(j-1, 0)]: key [-1] is never present. *)
Definition j2len_get_pred (j2len : gmap nat nat) (j : nat) : nat :=
  match j with
  | 0 => 0
  | S j' => default 0 (j2len !! j')
  end.

(** The inner loop of [find_longest_match] over [b2j.get(a[i], nothing)]:
    [continue] below [blo], [break] from [bhi] on.  Python's [i-k+1] and
    [j-k+1] are [S i - k] and [S j - k]. *)
Fixpoint inner_loop (i blo bhi : nat) (j2len : gmap nat nat) (js : list nat)
    (newj2len : gmap nat nat) (best : block) : gmap nat nat * block :=
  match js with
  | [] => (newj2len, best)
  | j :: js' =>
      if decide (j < blo) then inner_loop i blo bhi j2len js' newj2len best
      else if decide (bhi <= j) then (newj2len, best)
      else
        let k := j2len_get_pred j2len j + 1 in
        let newj2len := <[j := k]> newj2len in
        let best := if decide (size_of best < k)
                    then (S i - k, S j - k, k) else best in
        inner_loop i blo bhi j2len js' newj2len best
  end.

(** Lexicographic order on triples, the order of [list.sort()] on tuples. *)
Definition block_le (x y : block) : Prop :=
  x.1.1 < y.1.1 \/
  (x.1.1 = y.1.1 /\ (x.1.2 < y.1.2 \/ (x.1.2 = y.1.2 /\ x.2 <= y.2))).

#[global] Instance block_le_dec : RelDecision block_le.
Proof. intros x y. unfold block_le. apply _. Defined.

(** The loop of [get_matching_blocks] that joins adjacent blocks;
    [(i1, j1, k1)] is the block being grown. *)
Fixpoint join_adjacent (blocks : list block) (cur : block)
    (non_adjacent : list block) : list block :=
  match blocks with
  | [] => if decide (size_of cur = 0) then non_adjacent
          else non_adjacent ++ [cur]
  | (i2, j2, k2) :: rest =>
      let '(i1, j1, k1) := cur in
      if decide (i1 + k1 = i2 /\ j1 + k1 = j2)
      then join_adjacent rest (i1, j1, k1 + k2) non_adjacent
      else join_adjacent rest (i2, j2, k2)
             (if decide (k1 = 0) then non_adjacent
              else non_adjacent ++ [(i1, j1, k1)])
  end.

(** [_calculate_ratio(matches, length)] *)
Definition calculate_ratio (matches length : nat) : Float64.float :=
  if decide (length = 0) then Float64.one
  else Float64.div (Float64.mul Float64.two (Float64.of_nat matches))
                   (Float64.of_nat length).

Section SequenceMatcher.
Context `{Countable A}.

(** [__chain_b]: the positions of each element of [b], ascending. *)
Definition chain_add (b2j : gmap A (list nat)) (i : nat) (elt : A)
  : gmap A (list nat) :=
  <[elt := default [] (b2j !! elt) ++ [i]]> b2j.

Fixpoint chain_loop (b : list A) (i : nat) (b2j : gmap A (list nat))
  : gmap A (list nat) :=
  match b with
  | [] => b2j
  | elt :: b' => chain_loop b' (S i) (chain_add b2j i elt)
  end.

(** With [isjunk=None] no junk is purged.  With [autojunk] and at least 200
    elements, the elements that occur more than [n // 100 + 1] times are
    "popular" and lose their entry. *)
Definition popular_elements (n : nat) (b2j : gmap A (list nat)) : gset A :=
  if decide (200 <= n)
  then dom (filter (fun kv => n / 100 + 1 < length kv.2) b2j)
  else ∅.

Definition chain_b (b : list A) : gmap A (list nat) :=
  let b2j := chain_loop b 0 ∅ in
  let popular := popular_elements (length b) b2j in
  filter (fun kv => kv.1 ∉ popular) b2j.

(** [bjunk] is the empty set, so [isbjunk] is constantly false. *)
Definition bjunk : gset A := ∅.
Definition isbjunk (x : A) : bool := bool_decide (x ∈ bjunk).

Section Matcher.
(** The matcher's fields [a], [b] and [b2j]. *)
Variables (a b : list A) (b2j : gmap A (list nat)).

(** [a[i] == b[j]], both in range. *)
Definition same_at (i j : nat) : bool :=
  match a !! i, b !! j with
  | Some x, Some y => bool_decide (x = y)
  | _, _ => false
  end.

Definition junk_at (j : nat) : bool :=
  match b !! j with
  | Some y => isbjunk y
  | None => false
  end.

(** The rows [for i in range(alo, ahi)]; [n] rows are left, starting at
    [i]. *)
Fixpoint row_loop (n i blo bhi : nat) (j2len : gmap nat nat) (best : block)
  : block :=
  match n with
  | 0 => best
  | S n' =>
      let js := match a !! i with
                | Some x => default [] (b2j !! x)
                | None => []
                end in
      let '(newj2len, best) := inner_loop i blo bhi j2len js ∅ best in
      row_loop n' (S i) blo bhi newj2len best
  end.

(** [while besti > alo and bestj > blo and (not) isbjunk(b[bestj-1]) and
    a[besti-1] == b[bestj-1]]: grow the block to the left.  [junk] tells
    whether the loop is the one for junk or for non-junk elements. *)
Fixpoint extend_left (junk : bool) (alo blo besti bestj bestsize : nat)
  : block :=
  match besti, bestj with
  | S i', S j' =>
      if bool_decide (alo < besti) && bool_decide (blo < bestj)
         && bool_decide (junk_at j' = junk) && same_at i' j'
      then extend_left junk alo blo i' j' (S bestsize)
      else (besti, bestj, bestsize)
  | _, _ => (besti, bestj, bestsize)
  end.

(** [while besti+bestsize < ahi and bestj+bestsize < bhi and (not)
    isbjunk(b[bestj+bestsize]) and a[besti+bestsize] == b[bestj+bestsize]]:
    grow the block to the right; [n] bounds the iterations left and is
    [ahi - (besti + bestsize)] at the call. *)
Fixpoint extend_right (junk : bool) (ahi bhi besti bestj : nat) (n : nat)
    (bestsize : nat) : nat :=
  match n with
  | 0 => bestsize
  | S n' =>
      if bool_decide (besti + bestsize < ahi)
         && bool_decide (bestj + bestsize < bhi)
         && bool_decide (junk_at (bestj + bestsize) = junk)
         && same_at (besti + bestsize) (bestj + bestsize)
      then extend_right junk ahi bhi besti bestj n' (S bestsize)
      else bestsize
  end.

Definition extend (junk : bool) (alo ahi blo bhi : nat) (m : block) : block :=
  let '(besti, bestj, bestsize) := m in
  let '(besti, bestj, bestsize) :=
    extend_left junk alo blo besti bestj bestsize in
  (besti, bestj,
   extend_right junk ahi bhi besti bestj (ahi - (besti + bestsize)) bestsize).

(** [find_longest_match(alo, ahi, blo, bhi)] *)
Definition find_longest_match (alo ahi blo bhi : nat) : block :=
  let best := row_loop (ahi - alo) alo blo bhi ∅ (alo, blo, 0) in
  let best := extend false alo ahi blo bhi best in
  extend true alo ahi blo bhi best.

(** The [while queue:] loop of [get_matching_blocks].  The head of [queue]
    is the top of the Python list used as a stack ([append] pushes, [pop]
    takes the last one).  [None] means that [fuel] ran out, which
    [matching_blocks_fuel] never lets happen ([get_matching_blocks_fuel]). *)
Fixpoint blocks_loop (fuel : nat) (queue : list region)
    (matching_blocks : list block) : option (list block) :=
  match fuel with
  | 0 => None
  | S fuel' =>
      match queue with
      | [] => Some matching_blocks
      | (alo, ahi, blo, bhi) :: queue =>
          let '(i, j, k) := find_longest_match alo ahi blo bhi in
          if decide (k = 0) then blocks_loop fuel' queue matching_blocks
          else
            let queue := if decide (alo < i /\ blo < j)
                         then (alo, i, blo, j) :: queue else queue in
            let queue := if decide (i + k < ahi /\ j + k < bhi)
                         then (i + k, ahi, j + k, bhi) :: queue else queue in
            blocks_loop fuel' queue (matching_blocks ++ [(i, j, k)])
      end
  end.

(** Each turn of the loop takes a region off the stack and puts back at
    most two that are shorter by the block found between them. *)
Definition matching_blocks_fuel : nat := 2 * length a + 2.

(** [get_matching_blocks]: the loop, [matching_blocks.sort()], the joining
    of adjacent blocks and the final sentinel [(la, lb, 0)]. *)
Definition get_matching_blocks : list block :=
  let la := length a in
  let lb := length b in
  let matching_blocks :=
    default [] (blocks_loop matching_blocks_fuel [(0, la, 0, lb)] []) in
  let sorted := merge_sort block_le matching_blocks in
  join_adjacent sorted (0, 0, 0) [] ++ [(la, lb, 0)].

(** [matches = sum(triple[-1] for triple in self.get_matching_blocks())] *)
Definition matches : nat := sum_list (size_of <$> get_matching_blocks).

End Matcher.

(** [SequenceMatcher(None, a, b).ratio()] *)
Definition ratio (a b : list A) : Float64.float :=
  calculate_ratio (matches a b (chain_b b)) (length a + length b).

End SequenceMatcher.

Arguments bjunk : clear implicits.
Arguments bjunk A {_ _}.
Arguments isbjunk {A _ _} x.
Arguments same_at {A _} a b i j.
Arguments junk_at {A _ _} b j.
Arguments extend_left {A _ _} a b junk alo blo besti bestj bestsize.
Arguments extend_right {A _ _} a b junk ahi bhi besti bestj n bestsize.
Arguments extend {A _ _} a b junk alo ahi blo bhi m.

End Difflib.

(** ** [class AppleTTS] *)

(** The exceptions a failing call ends with.  [ZeroDivisionError] is what
    Python's [/] raises on a zero divisor.  [EmptyCorpusError] is the
    explicit empty-corpus failure of the specification's error taxonomy;
    no path of the program raises it. *)
Inductive exn := ZeroDivisionError | EmptyCorpusError.

#[global] Instance exn_eq_dec : EqDecision exn.
Proof. solve_decision. Defined.

(** A call that returns a value or raises. *)
Definition result (T : Type) : Type := exn + T.
Definition ret {T} (x : T) : result T := inr x.
Definition raise {T} (e : exn) : result T := inl e.
Definition bind {T U} (m : result T) (f : T -> result U) : result U :=
  match m with
  | inl e => inl e
  | inr x => f x
  end.

Notation "'let!' x := m 'in' f" := (bind m (fun x => f))
  (at level 10, x name, m at level 100, f at level 200).

Module AppleTTS.

Import Float64.

(** [x / n] for a float (or the int 0) [x] and an int [n]. *)
Definition truediv (x : float) (n : nat) : result float :=
  if decide (n = 0) then raise ZeroDivisionError
  else ret (div x (of_nat n)).

(** [sum(...)] of floats: the additions from the int 0, left to right
    (CPython 3.12 and later compensate the rounding errors of this sum; the
    results differ in the last bits only, and not at all on an empty
    corpus). *)
Definition sum_floats (l : list float) : float := foldl add zero l.

(** [round(x, 2)]: the decimal with two fractional digits nearest to the
    exact value of [x] (ties to even), then the double nearest to that
    decimal. *)
Definition round_half_even (n d : Z) : Z :=
  let q := (n / d)%Z in
  let r := (n mod d)%Z in
  match (2 * r ?= d)%Z with
  | Lt => q
  | Gt => (q + 1)%Z
  | Eq => if Z.even q then q else (q + 1)%Z
  end.

Definition round2 (x : float) : float :=
  match x with
  | S754_finite s m (Zneg e) =>
      match round_half_even (100 * Zpos m) (2 ^ Zpos e) with
      | Zpos q => div (S754_finite s q 0) (of_Z 100)
      | _ => S754_zero s
      end
  | _ => x
  end.

(** The dict returned by [get_stats]. *)
Record stats := Stats {
  total_samples : nat;
  categories : nat;
  category_names : list pystr;
  avg_duration : float;
  total_duration : float
}.

(** [get_stats] *)
Definition get_stats (samples : list sample) : result stats :=
  let categories : gset pystr := list_to_set (script_title <$> samples) in
  let! avg := truediv (sum_floats (sentence_estimated_duration <$> samples))
                      (length samples) in
  ret {| total_samples := length samples;
         categories := size categories;
         category_names := merge_sort PyStr.str_le (elements categories);
         avg_duration := round2 avg;
         total_duration :=
           round2 (sum_floats (sentence_estimated_duration <$> samples)) |}.

(** [find_sample_by_id]: the first sample with that utterance name. *)
Fixpoint find_sample_by_id (samples : list sample) (name : pystr)
  : option sample :=
  match samples with
  | [] => None
  | s :: rest =>
      if bool_decide (utterance_name s = name) then Some s
      else find_sample_by_id rest name
  end.

(** The score of one candidate in [find_closest_match]: the [difflib]
    ratio plus the bonus for shared words. *)
Definition char_similarity (text sample_text : pystr) : float :=
  Difflib.ratio text sample_text.

Definition word_overlap (text sample_text : pystr) : float :=
  let text_words : gset pystr := list_to_set (PyStr.split text) in
  let sample_words : gset pystr := list_to_set (PyStr.split sample_text) in
  if decide (text_words = ∅) then zero
  else div (of_nat (size (text_words ∩ sample_words)))
           (of_nat (size text_words)).

Definition word_bonus (text sample_text : pystr) : float :=
  mul (word_overlap text sample_text) c0_3.

Definition score (text sample_text : pystr) : float :=
  add (char_similarity text sample_text) (word_bonus text sample_text).

(** The loop of [find_closest_match] with its two locals. *)
Fixpoint closest_loop (text : pystr) (samples : list sample)
    (best_match : option sample) (best_score : float) : option sample :=
  match samples with
  | [] => if ltb c0_3 best_score then best_match else None
  | sample :: rest =>
      let sample_text := PyStr.lower (words sample) in
      if decide (sample_text = text) then Some sample
      else
        let score := score text sample_text in
        if ltb best_score score
        then closest_loop text rest (Some sample) score
        else closest_loop text rest best_match best_score
  end.

Definition find_closest_match (samples : list sample) (text : pystr)
  : option sample :=
  let text := PyStr.strip (PyStr.lower text) in
  closest_loop text samples None zero.

(** [search_samples]: the loop appends each hit to [results]. *)
Fixpoint search_loop (query : pystr) (samples results : list sample)
  : list sample :=
  match samples with
  | [] => results
  | s :: rest =>
      if PyStr.contains query (PyStr.lower (words s))
      then search_loop query rest (results ++ [s])
      else search_loop query rest results
  end.

Definition search_samples (samples : list sample) (query : pystr)
  : list sample :=
  let query := PyStr.lower query in
  search_loop query samples [].

(** [filter_by_category] *)
Definition filter_by_category (samples : list sample) (category : pystr)
  : list sample :=
  filter (fun s => script_title s = category) samples.

(** The dict returned by [analyze_phonemes]. *)
Record analysis := Analysis {
  a_text : pystr;
  phoneme_count : nat;
  phonemes : list pystr;
  full_sequence : pystr;
  a_transcription : pystr
}.

Definition analyze_phonemes (samples : list sample) (name : pystr)
  : option analysis :=
  match find_sample_by_id samples name with
  | None => None
  | Some s =>
      let phonemes := PyStr.split_sep (str " # ") (phone_sequence s) in
      Some {| a_text := words s;
              phoneme_count := length phonemes;
              phonemes := phonemes;
              full_sequence := phone_sequence s;
              a_transcription := transcription s |}
  end.

End AppleTTS.

(** ** The command loop of [main] *)

Module Main.

(** [sep.join(pieces)] *)
Fixpoint join (sep : pystr) (pieces : list pystr) : pystr :=
  match pieces with
  | [] => []
  | [x] => x
  | x :: rest => x ++ sep ++ join sep rest
  end.

(** What one turn of the [while True] loop of [main] does with the line
    read by [input]: the branch taken and the argument handed to the method
    of [AppleTTS] that the branch calls. *)
Inductive command :=
  | Ignore                          (** empty input: [continue] *)
  | Quit                            (** ['quit']: [break] *)
  | ShowStats                       (** ['stats']: [get_stats()] *)
  | Search (query : pystr)          (** [search_samples(query)] *)
  | Play (utterance_id : pystr)     (** [play_audio(utterance_id)] *)
  | Analyze (utterance_id : pystr)  (** [analyze_phonemes(utterance_id)] *)
  | ListCategory (category : pystr) (** [filter_by_category(category)] *)
  | Closest (text : pystr).         (** [find_closest_match(user_input)] *)

#[global] Instance command_eq_dec : EqDecision command.
Proof. solve_decision. Defined.

(** The chain of tests on [user_input = input(...).strip()]. *)
Definition dispatch (line : pystr) : command :=
  let user_input := PyStr.strip line in
  if decide (user_input = []) then Ignore
  else if decide (PyStr.lower user_input = str "quit") then Quit
  else if decide (PyStr.lower user_input = str "stats") then ShowStats
  else if PyStr.starts_with (str "search ") (PyStr.lower user_input)
       then Search (drop 7 user_input)
  else if PyStr.starts_with (str "play ") (PyStr.lower user_input)
       then Play (PyStr.strip (drop 5 user_input))
  else if PyStr.starts_with (str "analyze ") (PyStr.lower user_input)
       then Analyze (PyStr.strip (drop 8 user_input))
  else if PyStr.starts_with (str "list ") (PyStr.lower user_input)
       then ListCategory (PyStr.strip (drop 5 user_input))
  else Closest user_input.

End Main.

(** ** The matcher as the specification words it

    Definitions that follow the specification's sentences, to be compared
    with the program's. *)

Module Spec.

(** "lower-cased and have leading/trailing whitespace stripped" *)
Definition normalize (s : pystr) : pystr := PyStr.strip (PyStr.lower s).


(** The matcher with "both [query] and each candidate [text]" normalized:
    the loop of [AppleTTS.closest_loop] with the candidate stripped too. *)
Fixpoint closest_loop_normalized (text : pystr) (samples : list sample)
    (best_match : option sample) (best_score : Float64.float)
  : option sample :=
  match samples with
  | [] => if Float64.ltb Float64.c0_3 best_score then best_match else None
  | sample :: rest =>
      let sample_text := normalize (words sample) in
      if decide (sample_text = text) then Some sample
      else
        let score := AppleTTS.score text sample_text in
        if Float64.ltb best_score score
        then closest_loop_normalized text rest (Some sample) score
        else closest_loop_normalized text rest best_match best_score
  end.

Definition find_closest_match_normalized (samples : list sample)
    (text : pystr) : option sample :=
  closest_loop_normalized (normalize text) samples None Float64.zero.

(** *** The Ratcliff/Obershelp measure, "2 * M / T" *)

Section RatcliffObershelp.
Context `{EqDecision A}.

(** The length of the common prefix of two sequences. *)
Fixpoint common_prefix_length (a b : list A) : nat :=
  match a, b with
  | x :: a', y :: b' =>
      if decide (x = y) then S (common_prefix_length a' b') else 0
  | _, _ => 0
  end.

(** Keep the longer of two blocks, the earlier one when they tie. *)
Definition keep_longer (best t : Difflib.block) : Difflib.block :=
  if decide (best.2 < t.2) then t else best.

(** The common block that starts at [p.1] in [a] and at [p.2] in [b]. *)
Definition block_at (a b : list A) (p : nat * nat) : Difflib.block :=
  (p.1, p.2, common_prefix_length (drop p.1 a) (drop p.2 b)).

(** "the longest common contiguous block": [(i, j, k)] with
    [a[i:i+k] == b[j:j+k]] and [k] maximal; among the longest blocks the
    one that starts earliest in [a], and then earliest in [b]; [(0, 0, 0)]
    when the sequences share no element. *)
Definition longest_common_block (a b : list A) : Difflib.block :=
  foldl keep_longer (0, 0, 0)
    (block_at a b <$> list_prod (seq 0 (length a)) (seq 0 (length b))).

(** "recursively taking the longest common contiguous block and recursing
    on the unmatched left/right remainders": the total length of the
    blocks.  [n] bounds the depth of the recursion; the length of [a] is
    enough ([matched_length_fuel]). *)
Fixpoint matched_length (n : nat) (a b : list A) : nat :=
  match n with
  | 0 => 0
  | S n' =>
      let '(i, j, k) := longest_common_block a b in
      if decide (k = 0) then 0
      else k + matched_length n' (take i a) (take j b)
             + matched_length n' (drop (i + k) a) (drop (j + k) b)
  end.

(** [M] *)
Definition ratcliff_obershelp_matches (a b : list A) : nat :=
  matched_length (length a) a b.

(** [2 * M / T], in the arithmetic of the program ([2.0 * M / T]). *)
Definition ratcliff_obershelp (a b : list A) : Float64.float :=
  Float64.div
    (Float64.mul Float64.two (Float64.of_nat (ratcliff_obershelp_matches a b)))
    (Float64.of_nat (length a + length b)).

End RatcliffObershelp.

End Spec.

(** ** Substring search *)

Section Search.
Import PyStr AppleTTS.

Lemma starts_with_spec p s : starts_with p s = true <-> exists t, s = p ++ t.
Proof.
  revert s; induction p as [|x p IH]; intros s; simpl.
  - split; [intros _; by exists s | done].
  - destruct s as [|y s].
    + split; [done | intros [t Ht]; discriminate].
    + rewrite andb_true_iff, bool_decide_eq_true, IH. split.
      * intros [-> [t ->]]. by exists t.
      * intros [t Ht]. injection Ht as -> ->. eauto.
Qed.

(** [contains] decides the substring relation. *)
Lemma contains_spec q s :
  contains q s = true <-> exists pre post, s = pre ++ q ++ post.
Proof.
  induction s as [|c s IH]; simpl.
  - rewrite orb_false_r, starts_with_spec. split.
    + intros [t Ht]. by exists [], t.
    + intros (pre & post & H). symmetry in H.
      apply app_eq_nil in H as [-> H]. by exists post.
  - rewrite orb_true_iff, starts_with_spec, IH. split.
    + intros [[t Ht] | (pre & post & ->)].
      * by exists [], t.
      * by exists (c :: pre), post.
    + intros ([|c' pre] & post & H).
      * left. by exists post.
      * right. injection H as -> ->. by exists pre, post.
Qed.

Lemma contains_nil s : contains [] s = true.
Proof. by destruct s. Qed.

Lemma search_loop_filter query samples results :
  search_loop query samples results =
  results ++ List.filter (fun s => contains query (lower (words s))) samples.
Proof.
  revert results; induction samples as [|s rest IH]; intros results; simpl.
  - by rewrite app_nil_r.
  - destruct (contains query (lower (words s))); rewrite IH; [|done].
    by rewrite <- app_assoc.
Qed.

End Search.

(** [q] is a contiguous substring of [s]. *)
Definition is_substring (q s : pystr) : Prop :=
  exists pre post, s = pre ++ q ++ post.

#[global] Instance is_substring_dec q s : Decision (is_substring q s).
Proof.
  destruct (PyStr.contains q s) eqn:E.
  - left. by apply contains_spec.
  - right. intros H. apply contains_spec in H. congruence.
Defined.

Section SearchTheorems.
Import PyStr AppleTTS.

(** C9. [search_samples] returns exactly the samples whose lower-cased
    text has the lower-cased query as a substring, in corpus order (it is
    the order-preserving filter of the corpus by that test), and the empty
    query returns the whole corpus. *)
Theorem search_samples_spec (samples : list sample) (query : pystr) :
  search_samples samples query =
    filter (fun s => is_substring (lower query) (lower (words s))) samples
  /\ search_samples samples [] = samples.
Proof.
  unfold search_samples. rewrite !search_loop_filter. simpl. split.
  - induction samples as [|s rest IH]; [done|].
    simpl. rewrite filter_cons, IH.
    destruct (contains (lower query) (lower (words s))) eqn:E.
    + rewrite decide_True; [done | by apply contains_spec].
    + rewrite decide_False; [done|].
      intros H. apply contains_spec in H. congruence.
  - induction samples as [|s rest IH]; [done|].
    simpl. rewrite contains_nil. by f_equal.
Qed.

End SearchTheorems.

(** ** Phoneme analysis *)

Section Phonemes.
Import PyStr AppleTTS.

Lemma split_sep_go_length sep skip cur s :
  1 <= length (split_sep_go sep skip cur s).
Proof.
  revert skip cur; induction s as [|c s IH]; intros skip cur; simpl; [lia|].
  destruct skip; [|apply IH].
  destruct (starts_with sep (c :: s)); [simpl; lia | apply IH].
Qed.

(** C10. For a sample found by its id, [analyze_phonemes] reports at
    least one phoneme: [phoneme_count] is the number of pieces of the
    split on [" # "], which is never 0, and an empty phone sequence gives
    count 1 with the single empty phoneme. *)
Theorem analyze_phonemes_count (samples : list sample) (name : pystr) (s : sample) :
  find_sample_by_id samples name = Some s ->
  exists a, analyze_phonemes samples name = Some a
    /\ phoneme_count a = length (phonemes a)
    /\ phonemes a = split_sep (str " # ") (phone_sequence s)
    /\ 1 <= phoneme_count a
    /\ (phone_sequence s = [] -> phoneme_count a = 1 /\ phonemes a = [[]]).
Proof.
  intros Hs. unfold analyze_phonemes. rewrite Hs.
  eexists; split; [reflexivity|]. simpl.
  split; [done|]. split; [done|]. split.
  - apply split_sep_go_length.
  - by intros ->.
Qed.

Definition sample_empty_phones : sample :=
  Sample (str "u1") (str "hello") (str "greeting") (Float64.of_Z 2) [] (str "h@loU").

Lemma analyze_phonemes_count_witness :
  exists a, analyze_phonemes [sample_empty_phones] (str "u1") = Some a
    /\ phoneme_count a = length (phonemes a)
    /\ phonemes a = split_sep (str " # ") (phone_sequence sample_empty_phones)
    /\ 1 <= phoneme_count a
    /\ (phone_sequence sample_empty_phones = [] ->
        phoneme_count a = 1 /\ phonemes a = [[]]).
Proof.
  apply (analyze_phonemes_count [sample_empty_phones] (str "u1") sample_empty_phones).
  reflexivity.
Defined.

End Phonemes.
(** ** Facts about the string methods *)

Section Strings.
Import PyStr.

Lemma is_space_lower_char c : is_space (lower_char c) = is_space c.
Proof. by destruct c as [[] [] [] [] [] [] [] []]. Qed.

Lemma lower_char_idemp c : lower_char (lower_char c) = lower_char c.
Proof. by destruct c as [[] [] [] [] [] [] [] []]. Qed.

Lemma lower_idemp s : lower (lower s) = lower s.
Proof.
  unfold lower. rewrite <- list_fmap_compose.
  apply list_fmap_ext; intros _ c _. apply lower_char_idemp.
Qed.



Lemma lstrip_head s c t : lstrip s = c :: t -> is_space c = false.
Proof.
  induction s as [|x s IH]; simpl; [done|].
  destruct (is_space x) eqn:Hx; [done|]. by intros [= <- _].
Qed.

Lemma lstrip_nonspace c s : is_space c = false -> lstrip (c :: s) = c :: s.
Proof. intros Hc. simpl. by rewrite Hc. Qed.

Lemma lstrip_snoc_nonspace s c :
  is_space c = false -> exists t, lstrip (s ++ [c]) = t ++ [c].
Proof.
  intros Hc. induction s as [|x s [t IH]]; simpl.
  - rewrite Hc. by exists [].
  - destruct (is_space x); [by exists t|]. by exists (x :: s).
Qed.

Lemma lstrip_idemp s : lstrip (lstrip s) = lstrip s.
Proof.
  destruct (lstrip s) as [|c t] eqn:E; [done|].
  apply lstrip_nonspace. by eapply lstrip_head.
Qed.

Lemma rstrip_idemp s : rstrip (rstrip s) = rstrip s.
Proof. unfold rstrip. by rewrite rev_involutive, lstrip_idemp. Qed.

(** Stripping on the right keeps a non-space first character. *)
Lemma rstrip_cons_nonspace c s :
  is_space c = false -> exists t, rstrip (c :: s) = c :: t.
Proof.
  intros Hc. unfold rstrip. simpl.
  destruct (lstrip_snoc_nonspace (rev s) c Hc) as [t ->].
  exists (rev t). by rewrite rev_app_distr.
Qed.

Lemma lstrip_rstrip_lstrip s : lstrip (rstrip (lstrip s)) = rstrip (lstrip s).
Proof.
  destruct (lstrip s) as [|c t] eqn:E; [done|].
  destruct (rstrip_cons_nonspace c t) as [u ->]; [by eapply lstrip_head|].
  apply lstrip_nonspace. by eapply lstrip_head.
Qed.

Lemma strip_idemp s : strip (strip s) = strip s.
Proof. unfold strip. by rewrite lstrip_rstrip_lstrip, rstrip_idemp. Qed.

Lemma lstrip_lower s : lstrip (lower s) = lower (lstrip s).
Proof.
  induction s as [|c s IH]; simpl; [done|].
  rewrite is_space_lower_char. by destruct (is_space c).
Qed.

Lemma rstrip_lower s : rstrip (lower s) = lower (rstrip s).
Proof.
  unfold rstrip. change (rev (lower s)) with (rev (map lower_char s)).
  rewrite <- map_rev. change (map lower_char (rev s)) with (lower (rev s)).
  rewrite lstrip_lower. unfold lower. by rewrite map_rev.
Qed.

Lemma strip_lower s : strip (lower s) = lower (strip s).
Proof. unfold strip. by rewrite lstrip_lower, rstrip_lower. Qed.

(** Normalising a normalised query changes nothing. *)
Lemma strip_lower_idemp s : strip (lower (strip (lower s))) = strip (lower s).
Proof. by rewrite (strip_lower s), lower_idemp, <- strip_lower, strip_idemp. Qed.





End Strings.

(** ** The order of binary64 values

    The comparisons of the loop, without any assumption on the values
    compared: a NaN compares false with everything. *)

Section FloatOrder.
Import Float64.

Ltac float_cases :=
  unfold ltb, leb, SFltb, SFleb, SFcompare;
  repeat match goal with
         | x : spec_float |- _ => destruct x
         | s : bool |- _ => destruct s
         end;
  simpl; try done;
  change (Pos.compare_cont Eq) with Pos.compare;
  repeat match goal with
         | |- context [(?x ?= ?y)%Z] => destruct (Z.compare_spec x y)
         | |- context [(?x ?= ?y)%positive] => destruct (Pos.compare_spec x y)
         end;
  simpl; try done; try lia.

Lemma ltb_leb_trans x y z : ltb x y = true -> leb y z = true -> ltb x z = true.
Proof. float_cases. Qed.

Lemma ltb_asym x y : ltb x y = true -> ltb y x = false.
Proof. float_cases. Qed.

Lemma ltb_trans x y z : ltb x y = true -> ltb y z = true -> ltb x z = true.
Proof. float_cases. Qed.

Lemma ltb_irrefl x : ltb x x = false.
Proof.
  destruct (ltb x x) eqn:E; [|done]. by rewrite (ltb_asym _ _ E) in E.
Qed.

(** If [c < s] while [b < s] fails, for a [b] that is no NaN (it is above
    zero), then [c < b]. *)
Lemma ltb_cotrans c s b :
  ltb c s = true -> ltb b s = false -> ltb zero b = true -> ltb c b = true.
Proof. unfold zero. float_cases. Qed.

Lemma ltb_zero_c0_3 : ltb zero c0_3 = true.
Proof. reflexivity. Qed.

(** A zero of either sign or a NaN: what a quotient with numerator 0 can
    be, whatever the divisor. *)
Definition zero_or_nan (x : float) : Prop :=
  match x with
  | S754_zero _ | S754_nan => True
  | _ => False
  end.

Lemma zero_or_nan_div x y : zero_or_nan x -> zero_or_nan (div x y).
Proof. by destruct x, y. Qed.

Lemma zero_or_nan_mul_two x : zero_or_nan x -> zero_or_nan (mul two x).
Proof. by destruct x. Qed.

Lemma zero_or_nan_mul_c0_3 x : zero_or_nan x -> zero_or_nan (mul x c0_3).
Proof. by destruct x. Qed.

Lemma zero_or_nan_add x y : zero_or_nan x -> zero_or_nan y -> zero_or_nan (add x y).
Proof. by destruct x as [[]| | |], y as [[]| | |]. Qed.

Lemma ltb_zero_or_nan x : zero_or_nan x -> ltb zero x = false.
Proof. by destruct x. Qed.

End FloatOrder.

(** ** The decision policy of [find_closest_match] *)

Section Policy.
Import PyStr Float64 AppleTTS.

(** The exact-match test of the loop, for the normalized query [text]. *)
Definition is_exact (text : pystr) (r : sample) : bool :=
  bool_decide (lower (words r) = text).

(** The score the loop gives to sample [r]. *)
Definition score_of (text : pystr) (r : sample) : float :=
  score text (lower (words r)).

Lemma closest_loop_exact text l bm bs r :
  List.find (is_exact text) l = Some r -> closest_loop text l bm bs = Some r.
Proof.
  revert bm bs. induction l as [|x l IH]; intros bm bs; simpl; [done|].
  unfold is_exact at 1. case_bool_decide as Hx.
  - intros [= ->]. by rewrite decide_True.
  - intros Hr. rewrite decide_False by done.
    destruct (ltb bs _); by apply IH.
Qed.

Lemma find_is_exact_None text l :
  List.find (is_exact text) l = None ->
  forall r, r ∈ l -> lower (words r) <> text.
Proof.
  intros Hn r Hr Heq. apply list_elem_of_In in Hr.
  pose proof (find_none _ _ Hn r Hr) as Hf.
  unfold is_exact in Hf. by rewrite bool_decide_eq_false in Hf.
Qed.

(** What the two locals of the loop hold after the samples [seen]:
    [best_match] is the first sample of maximal score and [best_score] its
    score, once some score exceeded 0. *)
Definition best_inv (text : pystr) (seen : list sample)
    (bm : option sample) (bs : float) : Prop :=
  match bm with
  | None => bs = zero /\ forall r, r ∈ seen -> ltb zero (score_of text r) = false
  | Some r0 =>
      exists i, seen !! i = Some r0 /\ bs = score_of text r0
        /\ ltb zero bs = true
        /\ (forall j r, seen !! j = Some r -> ltb bs (score_of text r) = false)
        /\ (forall j r, seen !! j = Some r ->
              leb bs (score_of text r) = true -> i <= j)
  end.

Lemma best_inv_step text seen bm bs r :
  best_inv text seen bm bs ->
  best_inv text (seen ++ [r])
    (if ltb bs (score_of text r) then Some r else bm)
    (if ltb bs (score_of text r) then score_of text r else bs).
Proof.
  intros Hinv. destruct (ltb bs (score_of text r)) eqn:Hlt.
  - (* the new sample becomes the best *)
    assert (Hpos : ltb zero (score_of text r) = true).
    { destruct bm as [r0|]; simpl in Hinv.
      - destruct Hinv as (i & _ & _ & H0 & _). by eapply ltb_trans.
      - destruct Hinv as [-> _]. done. }
    assert (Hold : forall j r', seen !! j = Some r' ->
              ltb bs (score_of text r') = false).
    { intros j r' Hj. destruct bm as [r0|]; simpl in Hinv.
      - destruct Hinv as (i & _ & _ & _ & Hmax & _). by eapply Hmax.
      - destruct Hinv as [-> Hz]. apply Hz. by eapply list_elem_of_lookup_2. }
    exists (length seen). split; [|split; [done|split; [done|split]]].
    + rewrite lookup_app_r by lia. by rewrite Nat.sub_diag.
    + intros j r' Hj. apply lookup_app_Some in Hj as [Hj | [_ Hj]].
      * destruct (ltb (score_of text r) (score_of text r')) eqn:E; [|done].
        rewrite <- (Hold j r' Hj). symmetry. by eapply ltb_trans.
      * apply list_lookup_singleton_Some in Hj as [_ <-]. apply ltb_irrefl.
    + intros j r' Hj Hle. apply lookup_app_Some in Hj as [Hj | [? _]]; [|done].
      pose proof (ltb_leb_trans _ _ _ Hlt Hle) as Hc.
      rewrite (Hold j r' Hj) in Hc. done.
  - (* the best so far stays *)
    destruct bm as [r0|]; simpl in *.
    + destruct Hinv as (i & Hi & Hbs & H0 & Hmax & Hfirst).
      exists i. split; [by apply lookup_app_l_Some|].
      split; [done|]. split; [done|]. split.
      * intros j r' Hj. apply lookup_app_Some in Hj as [Hj | [_ Hj]].
        -- by eapply Hmax.
        -- by apply list_lookup_singleton_Some in Hj as [_ <-].
      * intros j r' Hj Hle. apply lookup_app_Some in Hj as [Hj | [Hj _]].
        -- by eapply Hfirst.
        -- apply lookup_lt_Some in Hi. lia.
    + destruct Hinv as [-> Hz]. split; [done|].
      intros r' [Hr' | Hr']%elem_of_app; [by apply Hz|].
      by apply list_elem_of_singleton in Hr' as ->.
Qed.

(** The scored pass: with no exact match among [l2], the loop ends with
    the locals described by [best_inv] and applies the threshold. *)
Lemma closest_loop_scored text l2 : forall l1 bm bs,
  (forall r, r ∈ l2 -> lower (words r) <> text) ->
  best_inv text l1 bm bs ->
  exists bm' bs', best_inv text (l1 ++ l2) bm' bs'
    /\ closest_loop text l2 bm bs = if ltb c0_3 bs' then bm' else None.
Proof.
  induction l2 as [|r l2 IH]; intros l1 bm bs Hne Hinv.
  - exists bm, bs. by rewrite app_nil_r.
  - simpl. rewrite decide_False by (apply Hne; left).
    pose proof (best_inv_step text l1 bm bs r Hinv) as Hstep.
    fold (score_of text r).
    replace (l1 ++ r :: l2) with ((l1 ++ [r]) ++ l2)
      by (by rewrite <- app_assoc).
    destruct (ltb bs (score_of text r)); apply IH; try done;
      intros r' Hr'; apply Hne; by right.
Qed.

Lemma best_inv_nil text : best_inv text [] None zero.
Proof. split; [done|]. intros r Hr. by apply elem_of_nil in Hr. Qed.

(** The whole loop: either the first exact match, or the outcome of the
    scored pass. *)
Lemma find_closest_match_cases samples q :
  let text := strip (lower q) in
  (exists r, List.find (is_exact text) samples = Some r
     /\ find_closest_match samples q = Some r)
  \/ ((forall r, r ∈ samples -> lower (words r) <> text)
      /\ exists bm bs, best_inv text samples bm bs
           /\ find_closest_match samples q = if ltb c0_3 bs then bm else None).
Proof.
  intros text. unfold find_closest_match. fold text.
  destruct (List.find (is_exact text) samples) as [r|] eqn:Hf.
  - left. exists r. split; [done|]. by apply closest_loop_exact.
  - right. pose proof (find_is_exact_None _ _ Hf) as Hne. split; [done|].
    destruct (closest_loop_scored text samples [] None zero Hne
                (best_inv_nil text)) as (bm & bs & Hinv & Heq).
    by exists bm, bs.
Qed.

End Policy.

(** ** An empty candidate *)

Section EmptyCandidate.
Import Difflib.
Context `{Countable A}.

Lemma row_loop_no_entries (a b : list A) n : forall i blo bhi j2len best,
  row_loop a ∅ n i blo bhi j2len best = best.
Proof.
  induction n as [|n IH]; intros i blo bhi j2len best; simpl; [done|].
  destruct (a !! i); simpl; rewrite ?lookup_empty; simpl; apply IH.
Qed.

Lemma chain_b_nil : chain_b (A:=A) [] = ∅.
Proof. unfold chain_b. simpl. apply map_filter_empty. Qed.

Lemma extend_right_nil (a : list A) junk ahi n :
  extend_right a [] junk ahi 0 0 0 n 0 = 0.
Proof. destruct n; simpl; [done|]. by rewrite andb_false_r. Qed.

Lemma find_longest_match_nil (a : list A) ahi :
  find_longest_match a [] ∅ 0 ahi 0 0 = (0, 0, 0).
Proof.
  unfold find_longest_match. rewrite row_loop_no_entries by exact [].
  unfold extend. simpl. by rewrite !extend_right_nil.
Qed.

(** Against the empty sequence nothing matches. *)
Lemma matches_nil (a : list A) : matches a [] (chain_b []) = 0.
Proof.
  rewrite chain_b_nil. unfold matches, get_matching_blocks, matching_blocks_fuel.
  replace (2 * length a + 2) with (S (S (2 * length a))) by lia.
  cbn [blocks_loop]. rewrite find_longest_match_nil.
  rewrite decide_True by done. done.
Qed.

End EmptyCandidate.

(** ** Sample corpora *)

Definition mk_sample (name text : string) : sample :=
  Sample (str name) (str text) (str "greeting") (Float64.of_Z 1)
         (str "g UH d") (str "").

(** The corpus of the specification's end-to-end example. *)
Definition corpus_greetings : list sample :=
  [mk_sample "u1" "good morning everyone"; mk_sample "u2" "good night everyone"].

(** Two samples whose texts differ by a leading blank. *)
Definition corpus_blank : list sample :=
  [mk_sample "A" " hello"; mk_sample "B" "hello"].

(** Twice the same text. *)
Definition corpus_twins : list sample :=
  [mk_sample "A" "good morning"; mk_sample "B" "good morning";
   mk_sample "C" "good night"].

(** A sample with empty text. *)
Definition corpus_empty_text : list sample :=
  [mk_sample "E" ""; mk_sample "B" "hello"].

Section PolicyTheorems.
Import PyStr Float64 AppleTTS.

(** C1, as stated, fails: the first sample whose stripped, lower-cased text
    equals the normalized query is [A], and [B] is returned. *)
Lemma exact_match_stripped_counterexample :
  List.find (fun r => bool_decide (Spec.normalize (words r) = Spec.normalize (str "hello")))
    corpus_blank = Some (mk_sample "A" " hello")
  /\ find_closest_match corpus_blank (str "hello") = Some (mk_sample "B" "hello")
  /\ mk_sample "A" " hello" <> mk_sample "B" "hello".
Proof. split; [|split]; [by vm_compute | by vm_compute | discriminate]. Qed.

(** C1 (amended).  If the lower-cased text of some sample equals the
    normalized query (lower-cased, then stripped), [find_closest_match]
    returns the first such sample in corpus order, whatever the scores of
    the other samples: the sample at position [i] is returned as soon as it
    is an exact match and no sample before it is. *)
Theorem exact_match_first (samples : list sample) (q : pystr) (i : nat) (r : sample) :
  samples !! i = Some r ->
  lower (words r) = Spec.normalize q ->
  (forall j r', j < i -> samples !! j = Some r' ->
     lower (words r') <> Spec.normalize q) ->
  find_closest_match samples q = Some r.
Proof.
  unfold find_closest_match, Spec.normalize.
  generalize (@None sample) zero. revert i.
  induction samples as [|x l IH]; intros i bm bs Hi Hr Hfirst; [done|].
  cbn [closest_loop]. destruct i as [|i].
  - injection Hi as ->. by rewrite decide_True.
  - rewrite decide_False by (apply (Hfirst 0 x); [lia|done]).
    destruct (ltb bs _); apply (IH i); try done;
      intros j r' Hj; apply (Hfirst (S j)); lia.
Qed.

Lemma exact_match_first_witness :
  find_closest_match corpus_twins (str "  Good Morning ")
  = Some (mk_sample "A" "good morning").
Proof.
  apply (exact_match_first corpus_twins (str "  Good Morning ") 0
           (mk_sample "A" "good morning")).
  - reflexivity.
  - vm_compute. reflexivity.
  - intros j r' Hj. lia.
Defined.

(** No exact match in the specification's sense leaves none in the
    program's. *)
Lemma no_normalized_match (samples : list sample) (q : pystr) :
  (forall r, r ∈ samples -> Spec.normalize (words r) <> Spec.normalize q) ->
  forall r, r ∈ samples -> lower (words r) <> strip (lower q).
Proof.
  intros Hn r Hr Heq. apply (Hn r Hr). unfold Spec.normalize.
  by rewrite Heq, strip_idemp.
Qed.

(** C4.  With no exact normalized match, [find_closest_match] returns a
    sample exactly when the best score is strictly greater than 0.3: a
    returned sample is in the corpus, scores above 0.3 and no sample scores
    more; and when [None] is returned no sample scores above 0.3. *)
Theorem threshold_decision (samples : list sample) (q : pystr) :
  (forall r, r ∈ samples -> Spec.normalize (words r) <> Spec.normalize q) ->
  match find_closest_match samples q with
  | Some r =>
      r ∈ samples
      /\ ltb c0_3 (score_of (Spec.normalize q) r) = true
      /\ forall r', r' ∈ samples ->
           ltb (score_of (Spec.normalize q) r) (score_of (Spec.normalize q) r') = false
  | None =>
      forall r, r ∈ samples -> ltb c0_3 (score_of (Spec.normalize q) r) = false
  end.
Proof.
  intros Hn. pose proof (no_normalized_match _ _ Hn) as Hne.
  unfold Spec.normalize.
  destruct (find_closest_match_cases samples q) as [(r & Hf & _) | (_ & bm & bs & Hinv & ->)].
  { apply find_some in Hf as [Hr He]. unfold is_exact in He.
    apply bool_decide_eq_true in He. apply list_elem_of_In in Hr.
    by destruct (Hne r Hr). }
  destruct bm as [r0|]; simpl in Hinv.
  - destruct Hinv as (i & Hi & -> & H0 & Hmax & _).
    destruct (ltb c0_3 (score_of _ r0)) eqn:Hthr.
    + split; [by eapply list_elem_of_lookup_2|]. split; [done|].
      intros r' [j Hj]%list_elem_of_lookup. by eapply Hmax.
    + intros r [j Hj]%list_elem_of_lookup.
      destruct (ltb c0_3 (score_of _ r)) eqn:E; [|done].
      rewrite <- Hthr. symmetry.
      eapply ltb_cotrans; [exact E | by eapply Hmax | done].
  - destruct Hinv as [-> Hz].
    assert (Hall : forall r, r ∈ samples ->
              ltb c0_3 (score_of (strip (lower q)) r) = false).
    { intros r Hr. destruct (ltb c0_3 (score_of _ r)) eqn:E; [|done].
      rewrite <- (Hz r Hr). symmetry.
      eapply ltb_trans; [apply ltb_zero_c0_3 | exact E]. }
    by destruct (ltb c0_3 zero).
Qed.

Lemma threshold_decision_witness :
  match find_closest_match corpus_greetings (str "good morning") with
  | Some r =>
      r ∈ corpus_greetings
      /\ ltb c0_3 (score_of (Spec.normalize (str "good morning")) r) = true
      /\ forall r', r' ∈ corpus_greetings ->
           ltb (score_of (Spec.normalize (str "good morning")) r)
               (score_of (Spec.normalize (str "good morning")) r') = false
  | None =>
      forall r, r ∈ corpus_greetings ->
        ltb c0_3 (score_of (Spec.normalize (str "good morning")) r) = false
  end.
Proof.
  apply (threshold_decision corpus_greetings (str "good morning")).
  intros r Hr. unfold corpus_greetings in Hr.
  apply elem_of_cons in Hr as [-> | Hr]; [by vm_compute|].
  apply list_elem_of_singleton in Hr as ->. by vm_compute.
Defined.

(** C5.  In the scored pass the sample returned is the first one of
    maximal score: no sample scores more, and every sample that scores at
    least as much comes at or after it in corpus order. *)
Theorem tie_break_first (samples : list sample) (q : pystr) (r : sample) :
  (forall r', r' ∈ samples -> lower (words r') <> Spec.normalize q) ->
  find_closest_match samples q = Some r ->
  exists i, samples !! i = Some r
    /\ (forall j r', samples !! j = Some r' ->
          ltb (score_of (Spec.normalize q) r) (score_of (Spec.normalize q) r') = false)
    /\ (forall j r', samples !! j = Some r' ->
          leb (score_of (Spec.normalize q) r) (score_of (Spec.normalize q) r') = true ->
          i <= j).
Proof.
  intros Hne. unfold Spec.normalize in *.
  destruct (find_closest_match_cases samples q) as [(r' & Hf & _) | (_ & bm & bs & Hinv & ->)].
  { apply find_some in Hf as [Hr He]. unfold is_exact in He.
    apply bool_decide_eq_true in He. apply list_elem_of_In in Hr.
    by destruct (Hne r' Hr). }
  destruct (ltb c0_3 bs); [|done]. intros ->. simpl in Hinv.
  destruct Hinv as (i & Hi & -> & _ & Hmax & Hfirst). by exists i.
Qed.

Lemma tie_break_first_witness :
  exists i, corpus_twins !! i = Some (mk_sample "A" "good morning")
    /\ (forall j r', corpus_twins !! j = Some r' ->
          ltb (score_of (Spec.normalize (str "good morn")) (mk_sample "A" "good morning"))
              (score_of (Spec.normalize (str "good morn")) r') = false)
    /\ (forall j r', corpus_twins !! j = Some r' ->
          leb (score_of (Spec.normalize (str "good morn")) (mk_sample "A" "good morning"))
              (score_of (Spec.normalize (str "good morn")) r') = true ->
          i <= j).
Proof.
  apply (tie_break_first corpus_twins (str "good morn")).
  - intros r Hr. unfold corpus_twins in Hr.
    repeat (apply elem_of_cons in Hr as [-> | Hr]; [by vm_compute|]).
    by apply elem_of_nil in Hr.
  - vm_compute. reflexivity.
Defined.

End PolicyTheorems.

Section NormalizationTheorems.
Import PyStr Float64 AppleTTS.

(** C6, as stated, fails: with the candidate texts stripped as well, the
    answer would be [A]; the program answers [B]. *)
Lemma normalized_identically_counterexample :
  Spec.find_closest_match_normalized corpus_blank (str "hello")
    = Some (mk_sample "A" " hello")
  /\ find_closest_match corpus_blank (str "hello") = Some (mk_sample "B" "hello")
  /\ find_closest_match corpus_blank (str "hello")
     <> Spec.find_closest_match_normalized corpus_blank (str "hello").
Proof. split; [|split]; by vm_compute. Qed.

(** Two runs of the loop over corpora with the same lower-cased texts, from
    corresponding locals, end with corresponding samples. *)
Definition same_position (l l' : list sample) (o o' : option sample) : Prop :=
  match o, o' with
  | None, None => True
  | Some r, Some r' => exists i, l !! i = Some r /\ l' !! i = Some r'
  | _, _ => False
  end.

Lemma closest_loop_lowered text l2 l2' : forall l1 l1' bm bm' bs,
  Forall2 (fun r r' => lower (words r) = lower (words r')) l2 l2' ->
  length l1 = length l1' ->
  same_position l1 l1' bm bm' ->
  same_position (l1 ++ l2) (l1' ++ l2')
    (closest_loop text l2 bm bs) (closest_loop text l2' bm' bs).
Proof.
  intros l1 l1' bm bm' bs HF. revert l1 l1' bm bm' bs.
  induction HF as [|r r' l2 l2' Hr HF IH]; intros l1 l1' bm bm' bs Hlen Hsame.
  - simpl. rewrite !app_nil_r.
    destruct (ltb c0_3 bs); [done|]. done.
  - simpl. rewrite <- Hr.
    assert (Hhere : same_position (l1 ++ r :: l2) (l1' ++ r' :: l2') (Some r) (Some r')).
    { exists (length l1). split.
      - by rewrite list_lookup_middle.
      - by rewrite list_lookup_middle. }
    destruct (decide (lower (words r) = text)); [done|].
    replace (l1 ++ r :: l2) with ((l1 ++ [r]) ++ l2) in * by (by rewrite <- app_assoc).
    replace (l1' ++ r' :: l2') with ((l1' ++ [r']) ++ l2') in * by (by rewrite <- app_assoc).
    assert (Hlen' : length (l1 ++ [r]) = length (l1' ++ [r'])).
    { rewrite !length_app. simpl. lia. }
    destruct (ltb bs (score text (lower (words r)))).
    + apply IH; [done|]. exists (length l1). split.
      * rewrite lookup_app_r by lia. by rewrite Nat.sub_diag.
      * rewrite lookup_app_r by lia. by rewrite Hlen, Nat.sub_diag.
    + apply IH; [done|]. destruct bm as [x|], bm' as [x'|]; try done.
      destruct Hsame as (i & Hi & Hi'). exists i.
      split; by apply lookup_app_l_Some.
Qed.

(** C6 (amended).  The query is lower-cased and stripped; each candidate
    text is lower-cased only.  The answer depends on the query through its
    normalized form and on each text through its lower-cased form: two
    queries with the same normalized form, on corpora whose texts agree
    after lower-casing, select the same position (or both nothing). *)
Theorem normalization_invariance (samples samples' : list sample) (q q' : pystr) :
  Spec.normalize q = Spec.normalize q' ->
  Forall2 (fun r r' => lower (words r) = lower (words r')) samples samples' ->
  same_position samples samples'
    (find_closest_match samples q) (find_closest_match samples' q').
Proof.
  unfold Spec.normalize, find_closest_match. intros <- HF.
  by apply (closest_loop_lowered _ samples samples' [] [] None None zero).
Qed.

(** In particular a query and its normalized form get the same answer. *)
Lemma find_closest_match_normalized_query (samples : list sample) (q : pystr) :
  find_closest_match samples (Spec.normalize q) = find_closest_match samples q.
Proof.
  unfold find_closest_match, Spec.normalize. by rewrite strip_lower_idemp.
Qed.

Lemma normalization_invariance_witness :
  same_position corpus_greetings
    [mk_sample "v1" "Good Morning Everyone"; mk_sample "v2" "GOOD NIGHT everyone"]
    (find_closest_match corpus_greetings (str "  Good morning"))
    (find_closest_match
       [mk_sample "v1" "Good Morning Everyone"; mk_sample "v2" "GOOD NIGHT everyone"]
       (str "good MORNING ")).
Proof.
  apply normalization_invariance.
  - by vm_compute.
  - repeat constructor.
Defined.

(** The score of a sample with empty text, for a non-empty query. *)
Lemma score_empty_text text :
  text <> [] -> zero_or_nan (score text []).
Proof.
  intros Hne. unfold score, char_similarity, word_bonus, word_overlap.
  apply zero_or_nan_add.
  - unfold Difflib.ratio. rewrite matches_nil. unfold Difflib.calculate_ratio.
    rewrite decide_False by (destruct text; [done | simpl; lia]).
    apply zero_or_nan_div. apply zero_or_nan_mul_two. done.
  - apply zero_or_nan_mul_c0_3. case_decide; [done|].
    apply zero_or_nan_div.
    change (split []) with (@nil pystr).
    by rewrite list_to_set_nil, (right_absorb_L _ _), size_empty.
Qed.

(** C7, as stated, fails: a query that normalizes to the empty string is an
    exact match of a sample with empty text. *)
Lemma empty_text_counterexample :
  find_closest_match corpus_empty_text (str "  ") = Some (mk_sample "E" "")
  /\ words (mk_sample "E" "") = [].
Proof. split; by vm_compute. Qed.

(** C7 (amended).  For a query whose normalized form is not empty,
    [find_closest_match] never returns a sample whose text is empty: such a
    sample is no exact match and its score never exceeds the best so far. *)
Theorem empty_text_unmatchable (samples : list sample) (q : pystr) (r : sample) :
  Spec.normalize q <> [] ->
  find_closest_match samples q = Some r ->
  words r <> [].
Proof.
  unfold Spec.normalize. intros Hq Hr Hw.
  destruct (find_closest_match_cases samples q)
    as [(r' & Hf & Heq) | (_ & bm & bs & Hinv & Heq)].
  - rewrite Heq in Hr. injection Hr as ->.
    apply find_some in Hf as [_ He]. unfold is_exact in He.
    apply bool_decide_eq_true in He. rewrite Hw in He. by apply Hq.
  - rewrite Heq in Hr. destruct (ltb c0_3 bs); [|done]. subst bm.
    simpl in Hinv. destruct Hinv as (i & _ & -> & H0 & _).
    unfold score_of in H0. rewrite Hw in H0. simpl in H0.
    by rewrite (ltb_zero_or_nan _ (score_empty_text _ Hq)) in H0.
Qed.

Lemma empty_text_unmatchable_witness :
  words (mk_sample "B" "hello") <> [].
Proof.
  apply (empty_text_unmatchable corpus_empty_text (str "hullo")).
  - by vm_compute.
  - by vm_compute.
Defined.


End NormalizationTheorems.

Section Stats.
Import Float64 AppleTTS.

(** C8, as stated, fails: on the empty corpus [get_stats] reaches the
    division, which raises [ZeroDivisionError]; it does not report the
    explicit empty-corpus failure. *)
Lemma get_stats_empty_counterexample :
  get_stats [] = raise ZeroDivisionError
  /\ get_stats [] <> raise EmptyCorpusError.
Proof. split; [reflexivity | discriminate]. Qed.

(** C8 (amended).  On an empty corpus [get_stats] fails with the
    [ZeroDivisionError] of its unguarded division; it returns statistics
    exactly when the corpus is not empty, and then counts its samples. *)
Theorem get_stats_empty_corpus (samples : list sample) :
  (samples = [] -> get_stats samples = raise ZeroDivisionError)
  /\ (samples <> [] ->
      exists st, get_stats samples = ret st
        /\ total_samples st = length samples
        /\ avg_duration st =
             round2 (div (sum_floats (sentence_estimated_duration <$> samples))
                         (of_nat (length samples)))).
Proof.
  split.
  - by intros ->.
  - intros Hne. unfold get_stats, truediv.
    rewrite decide_False by (by destruct samples).
    simpl. eexists. split; [reflexivity|]. done.
Qed.

Lemma get_stats_empty_corpus_witness :
  get_stats [] = raise ZeroDivisionError
  /\ exists st, get_stats corpus_greetings = ret st
        /\ total_samples st = length corpus_greetings
        /\ avg_duration st =
             round2 (div (sum_floats (sentence_estimated_duration <$> corpus_greetings))
                         (of_nat (length corpus_greetings))).
Proof.
  split.
  - by apply (proj1 (get_stats_empty_corpus [])).
  - by apply (proj2 (get_stats_empty_corpus corpus_greetings)).
Defined.

End Stats.

(** ** Keeping the first longest block

    Both [find_longest_match] and the specification's longest block run
    over candidate blocks in some order and replace the best one only by a
    strictly longer one. *)

Section FirstMax.
Import Difflib.

(** One update of [besti, bestj, bestsize]. *)
Definition upd (best t : block) : block :=
  if decide (size_of best < size_of t) then t else best.

(** Lexicographic order on pairs of indices. *)
Definition lex_lt (x y : nat * nat) : Prop :=
  x.1 < y.1 \/ (x.1 = y.1 /\ x.2 < y.2).

Lemma foldl_upd_first_max {K} (R : relation K) (f : K -> block) (keys : list K) :
  StronglySorted R keys -> forall init,
  (foldl upd init (f <$> keys) = init
   /\ forall k, k ∈ keys -> size_of (f k) <= size_of init)
  \/ (exists k0, k0 ∈ keys /\ foldl upd init (f <$> keys) = f k0
        /\ size_of init < size_of (f k0)
        /\ forall k, k ∈ keys ->
             size_of (f k) <= size_of (f k0)
             /\ (size_of (f k) = size_of (f k0) -> k = k0 \/ R k0 k)).
Proof.
  induction 1 as [|k ks Hks IH Hk]; intros init; simpl.
  - left. split; [done|]. intros k Hk. by apply elem_of_nil in Hk.
  - rewrite Forall_forall in Hk. change (list_fmap K block f ks) with (f <$> ks).
    destruct (decide (size_of init < size_of (f k))) as [Hlt|Hge].
    + replace (upd init (f k)) with (f k) by (unfold upd; by rewrite decide_True).
      right. destruct (IH (f k)) as [[Hr Hall] | (k0 & Hk0 & Hr & Hlt0 & Hall)].
      * exists k. split; [by apply list_elem_of_here|]. split; [done|]. split; [done|].
        intros k' [->|Hk']%elem_of_cons; [by auto|].
        split; [by apply Hall|]. intros _. right. by apply Hk.
      * exists k0. split; [by apply list_elem_of_further|]. split; [done|]. split; [lia|].
        intros k' [->|Hk']%elem_of_cons; [|by apply Hall].
        split; lia.
    + replace (upd init (f k)) with init by (unfold upd; by rewrite decide_False).
      destruct (IH init) as [[Hr Hall] | (k0 & Hk0 & Hr & Hlt0 & Hall)].
      * left. split; [done|].
        intros k' [->|Hk']%elem_of_cons; [lia | by apply Hall].
      * right. exists k0. split; [by apply list_elem_of_further|]. split; [done|]. split; [done|].
        intros k' [->|Hk']%elem_of_cons; [|by apply Hall].
        split; lia.
Qed.

Lemma StronglySorted_seq i n : StronglySorted lt (seq i n).
Proof.
  revert i. induction n as [|n IH]; intros i; simpl; constructor; [done|].
  apply Forall_forall. intros j Hj. apply elem_of_seq in Hj. lia.
Qed.

Lemma StronglySorted_filter {B} (R : relation B) (P : B -> Prop)
    `{!forall x, Decision (P x)} (l : list B) :
  StronglySorted R l -> StronglySorted R (filter P l).
Proof.
  induction 1 as [|x l Hl IH Hx]; [constructor|].
  rewrite filter_cons. case_decide; [|done].
  constructor; [done|]. rewrite Forall_forall in *.
  intros y [_ Hy]%list_elem_of_filter. by apply Hx.
Qed.

Lemma StronglySorted_pair_row (i : nat) (js : list nat) :
  StronglySorted lt js -> StronglySorted lex_lt (pair i <$> js).
Proof.
  apply StronglySorted_fmap. intros x y Hxy. right. simpl. done.
Qed.

Lemma StronglySorted_list_prod (l1 l2 : list nat) :
  StronglySorted lt l1 -> StronglySorted lt l2 ->
  StronglySorted lex_lt (list_prod l1 l2).
Proof.
  intros H1 H2. induction H1 as [|i l1 Hl1 IH Hi]; simpl; [constructor|].
  apply StronglySorted_app_2; [|by apply (StronglySorted_pair_row i)|done].
  rewrite Forall_forall in Hi.
  intros [i1 j1] [i2 j2] Hx1 Hx2.
  apply list_elem_of_In, in_map_iff in Hx1 as (j & [= <- <-] & _).
  apply list_elem_of_In, in_prod_iff in Hx2 as [Hi2 _].
  left. simpl. apply Hi. by apply list_elem_of_In.
Qed.

End FirstMax.

(** ** [__chain_b]: what [b2j] holds *)

Section ChainB.
Import Difflib.
Context `{Countable A}.

(** The positions of [x] in [b], counted from [i], ascending. *)
Fixpoint positions_from (i : nat) (x : A) (b : list A) : list nat :=
  match b with
  | [] => []
  | y :: b' =>
      if decide (y = x) then i :: positions_from (S i) x b'
      else positions_from (S i) x b'
  end.

Lemma elem_of_positions_from (b : list A) x : forall i j,
  j ∈ positions_from i x b <-> i <= j /\ b !! (j - i) = Some x.
Proof.
  induction b as [|y b IH]; intros i j; simpl.
  - rewrite elem_of_nil. split; [done | by intros [_ ?]].
  - assert (Hrec : j ∈ positions_from (S i) x b <-> S i <= j /\ b !! (j - S i) = Some x)
      by apply IH.
    destruct (decide (j = i)) as [->|Hne].
    + rewrite Nat.sub_diag. simpl. case_decide as Hy.
      * subst y. rewrite elem_of_cons. split; [done | by left].
      * rewrite Hrec. split; [lia | intros [_ [=]]; done].
    + assert (Hlk : S i <= j -> (y :: b) !! (j - i) = b !! (j - S i)).
      { intros Hle. replace (j - i) with (S (j - S i)) by lia. done. }
      case_decide as Hy; rewrite ?elem_of_cons, Hrec.
      * split.
        -- intros [?|[Hle Hb]]; [done|]. split; [lia|]. by rewrite Hlk.
        -- intros [Hle Hb]. right. split; [lia|]. rewrite <- Hlk by lia. done.
      * split.
        -- intros [Hle Hb]. split; [lia|]. by rewrite Hlk.
        -- intros [Hle Hb]. split; [lia|]. rewrite <- Hlk by lia. done.
Qed.

Lemma StronglySorted_positions_from (b : list A) x : forall i,
  StronglySorted lt (positions_from i x b).
Proof.
  induction b as [|y b IH]; intros i; simpl; [constructor|].
  case_decide; [|apply IH]. constructor; [apply IH|].
  apply Forall_forall. intros j Hj. apply elem_of_positions_from in Hj. lia.
Qed.

Lemma chain_loop_lookup (b : list A) x : forall i (m : gmap A (list nat)),
  default [] (chain_loop b i m !! x) = default [] (m !! x) ++ positions_from i x b.
Proof.
  induction b as [|y b IH]; intros i m; simpl.
  - by rewrite app_nil_r.
  - rewrite IH. unfold chain_add. case_decide as Hy.
    + subst y. rewrite lookup_insert_eq. simpl. by rewrite <- app_assoc.
    + by rewrite lookup_insert_ne.
Qed.

(** The element [x] keeps its entry in [chain_b b]. *)
Definition kept (b : list A) (x : A) : bool :=
  bool_decide (x ∉ popular_elements (length b) (chain_loop b 0 ∅)).

Lemma chain_b_lookup (b : list A) x :
  default [] (chain_b b !! x) = if kept b x then positions_from 0 x b else [].
Proof.
  unfold chain_b, kept. rewrite map_lookup_filter.
  pose proof (chain_loop_lookup b x 0 ∅) as Hl.
  rewrite lookup_empty in Hl. simpl in Hl. rewrite <- Hl.
  destruct (chain_loop b 0 ∅ !! x) as [idxs|]; simpl.
  - case_bool_decide as Hp; case_guard; done.
  - by case_bool_decide.
Qed.

(** Below 200 elements nothing is popular. *)
Lemma kept_short (b : list A) x : length b < 200 -> kept b x = true.
Proof.
  intros Hlen. unfold kept, popular_elements.
  rewrite decide_False by lia. by apply bool_decide_eq_true.
Qed.

End ChainB.

(** ** Longest blocks *)

Section Blocks.
Import Difflib.

(** [(i, j, k)] is a common block for the element test [eq_at]. *)
Definition is_block (eq_at : nat -> nat -> bool) (m : block) : Prop :=
  forall t, t < m.2 -> eq_at (m.1.1 + t) (m.1.2 + t) = true.

(** [alo <= i <= i+k <= ahi] and [blo <= j <= j+k <= bhi]. *)
Definition in_window (w : region) (m : block) : Prop :=
  w.1.1.1 <= m.1.1 /\ m.1.1 + m.2 <= w.1.1.2
  /\ w.1.2 <= m.1.2 /\ m.1.2 + m.2 <= w.2.

(** The contract of [find_longest_match]: a longest block of the window
    and, among the longest, the one that starts earliest in [a] and then
    earliest in [b]; [(alo, blo, 0)] when nothing matches. *)
Definition longest_in (eq_at : nat -> nat -> bool) (w : region) (m : block)
  : Prop :=
  in_window w m /\ is_block eq_at m
  /\ (m.2 = 0 -> m.1.1 = w.1.1.1 /\ m.1.2 = w.1.2)
  /\ forall m', 0 < m'.2 -> in_window w m' -> is_block eq_at m' ->
       m'.2 <= m.2
       /\ (m'.2 = m.2 ->
           m.1.1 < m'.1.1 \/ (m.1.1 = m'.1.1 /\ m.1.2 <= m'.1.2)).

Lemma longest_in_unique eq_at w m1 m2 :
  longest_in eq_at w m1 -> longest_in eq_at w m2 -> m1 = m2.
Proof.
  destruct m1 as [[i1 j1] k1], m2 as [[i2 j2] k2].
  intros (Hw1 & Hb1 & Hz1 & Hm1) (Hw2 & Hb2 & Hz2 & Hm2). simpl in *.
  destruct (decide (k1 = 0)) as [->|Hk1].
  - destruct (decide (k2 = 0)) as [->|Hk2].
    + destruct Hz1 as [-> ->]; [done|]. by destruct Hz2 as [-> ->].
    + destruct (Hm1 (i2, j2, k2)) as [Hle _]; simpl in *; [lia|done|done|lia].
  - destruct (Hm2 (i1, j1, k1)) as [Hle2 He2]; simpl in *; [lia|done|done|].
    destruct (Hm1 (i2, j2, k2)) as [Hle1 He1]; simpl in *; [lia|done|done|].
    assert (k1 = k2) as -> by lia.
    specialize (He1 eq_refl). specialize (He2 eq_refl).
    assert (i1 = i2) as -> by lia. assert (j1 = j2) as -> by lia. done.
Qed.

End Blocks.

Section LongestMatch.
Import Difflib.
Context `{Countable A}.
Variables (a b : list A) (keep : A -> bool) (b2j : gmap A (list nat)).
Hypothesis Hb2j : forall x,
  default [] (b2j !! x) = if keep x then positions_from 0 x b else [].

(** [a[i] == b[j]] for an element that has an entry in [b2j]. *)
Definition kept_at (i j : nat) : bool :=
  match a !! i, b !! j with
  | Some x, Some y => bool_decide (x = y) && keep x
  | _, _ => false
  end.

(** The list [b2j.get(a[i], nothing)] of row [i]. *)
Definition js_of (i : nat) : list nat :=
  match a !! i with
  | Some x => default [] (b2j !! x)
  | None => []
  end.

Lemma elem_of_js_of i j : j ∈ js_of i <-> kept_at i j = true.
Proof.
  unfold js_of, kept_at. destruct (a !! i) as [x|]; [|by rewrite elem_of_nil].
  rewrite Hb2j. destruct (keep x) eqn:Hk.
  - rewrite elem_of_positions_from, Nat.sub_0_r. split.
    + intros [_ ->]. by rewrite bool_decide_true.
    + destruct (b !! j) as [y|]; [|done].
      rewrite andb_true_r, bool_decide_eq_true. intros ->. split; [lia|done].
  - rewrite elem_of_nil. destruct (b !! j); [|done]. by rewrite andb_false_r.
Qed.

Lemma js_of_sorted i : StronglySorted lt (js_of i).
Proof.
  unfold js_of. destruct (a !! i) as [x|]; [|constructor].
  rewrite Hb2j. destruct (keep x); [|constructor].
  apply StronglySorted_positions_from.
Qed.

Section Window.
Variables (alo ahi blo bhi : nat).

(** The length of the longest run of kept equal elements that ends at
    [(i, j)] and stays at or after [(alo, blo)]: what [j2len] holds. *)
Fixpoint run_length (i j : nat) : nat :=
  if kept_at i j then
    match i, j with
    | S i', S j' =>
        if decide (alo < i /\ blo < j) then S (run_length i' j') else 1
    | _, _ => 1
    end
  else 0.

Lemma run_length_not_kept i j : kept_at i j = false -> run_length i j = 0.
Proof. intros Hk. destruct i; cbn [run_length]; by rewrite Hk. Qed.

Lemma run_length_kept i j :
  kept_at i j = true ->
  run_length i j =
    if decide (alo < i /\ blo < j) then S (run_length (i - 1) (j - 1)) else 1.
Proof.
  intros Hk. destruct i as [|i]; cbn [run_length]; rewrite Hk.
  - destruct (decide (alo < 0 /\ blo < j)); [lia|done].
  - destruct j as [|j].
    + destruct (decide (alo < S i /\ blo < 0)); [lia|done].
    + replace (S i - 1) with i by lia. replace (S j - 1) with j by lia. done.
Qed.

Lemma run_length_pos i j : 0 < run_length i j <-> kept_at i j = true.
Proof.
  destruct (kept_at i j) eqn:Hk.
  - rewrite run_length_kept by done. case_decide; split; (lia || done).
  - rewrite run_length_not_kept by done. split; (lia || done).
Qed.

Lemma run_length_bound i : forall j,
  alo <= i -> blo <= j ->
  run_length i j <= S i - alo /\ run_length i j <= S j - blo.
Proof.
  induction i as [|i IH]; intros j Hi Hj.
  - destruct (kept_at 0 j) eqn:Hk.
    + rewrite run_length_kept by done. rewrite decide_False by lia. lia.
    + rewrite run_length_not_kept by done. lia.
  - destruct (kept_at (S i) j) eqn:Hk.
    + rewrite run_length_kept by done. case_decide as Hd; [|lia].
      simpl. rewrite Nat.sub_0_r.
      destruct (IH (j - 1)) as [? ?]; lia.
    + rewrite run_length_not_kept by done. lia.
Qed.

(** The run is a block ... *)
Lemma run_length_block i : forall j t,
  t < run_length i j -> kept_at (i - t) (j - t) = true.
Proof.
  induction i as [|i IH]; intros j t Ht.
  - assert (Hk : kept_at 0 j = true) by (apply run_length_pos; lia).
    rewrite run_length_kept in Ht by done. rewrite decide_False in Ht by lia.
    assert (t = 0) as -> by lia. by rewrite !Nat.sub_0_r.
  - assert (Hk : kept_at (S i) j = true) by (apply run_length_pos; lia).
    rewrite run_length_kept in Ht by done.
    destruct t as [|t]; [by rewrite !Nat.sub_0_r|].
    case_decide as Hd; [|lia]. simpl in Ht. rewrite Nat.sub_0_r in Ht.
    replace (S i - S t) with (i - t) by lia.
    replace (j - S t) with (j - 1 - t) by lia.
    apply IH. lia.
Qed.

(** ... and no block that ends at [(i, j)] inside the window is longer. *)
Lemma run_length_max k : forall i j,
  k <= S i - alo -> k <= S j - blo ->
  (forall t, t < k -> kept_at (i - t) (j - t) = true) ->
  k <= run_length i j.
Proof.
  induction k as [|k IH]; intros i j Hi Hj Hb; [lia|].
  assert (Hk : kept_at i j = true).
  { specialize (Hb 0). rewrite !Nat.sub_0_r in Hb. apply Hb. lia. }
  rewrite run_length_kept by done.
  destruct k as [|k]; [case_decide; lia|].
  rewrite decide_True by lia.
  apply le_n_S. apply IH; [lia|lia|].
  intros t Ht. specialize (Hb (S t)).
  replace (i - 1 - t) with (i - S t) by lia.
  replace (j - 1 - t) with (j - S t) by lia. apply Hb. lia.
Qed.

(** The candidate block that ends at [(i, j)]. *)
Definition item (p : nat * nat) : block :=
  (S p.1 - run_length p.1 p.2, S p.2 - run_length p.1 p.2, run_length p.1 p.2).

(** [j2len] before row [i]. *)
Definition j2len_before (i : nat) (j2len : gmap nat nat) : Prop :=
  forall j', default 0 (j2len !! j') =
    if decide (alo < i /\ blo <= j' < bhi) then run_length (i - 1) j' else 0.

Lemma j2len_step i j j2len :
  j2len_before i j2len -> j < bhi -> kept_at i j = true ->
  j2len_get_pred j2len j + 1 = run_length i j.
Proof.
  intros Hprev Hj Hk. rewrite run_length_kept by done.
  destruct j as [|j]; simpl.
  - rewrite decide_False by lia. done.
  - rewrite Hprev, Nat.sub_0_r.
    destruct (decide (alo < i /\ blo <= j < bhi)) as [Hd|Hd].
    + rewrite decide_True by lia. lia.
    + rewrite decide_False by lia. done.
Qed.

Lemma filter_none {B} (P : B -> Prop) `{!forall x, Decision (P x)} (l : list B) :
  (forall x, x ∈ l -> ~ P x) -> filter P l = [].
Proof.
  induction l as [|x l IH]; intros Hl; [done|].
  rewrite filter_cons, decide_False by (apply Hl, list_elem_of_here).
  apply IH. intros y Hy. by apply Hl, list_elem_of_further.
Qed.

Lemma inner_loop_spec i j2len :
  j2len_before i j2len ->
  forall js newm best,
  StronglySorted lt js -> (forall j, j ∈ js -> kept_at i j = true) ->
  (forall j', default 0 ((inner_loop i blo bhi j2len js newm best).1 !! j') =
     if decide (j' ∈ js /\ blo <= j' < bhi) then run_length i j'
     else default 0 (newm !! j'))
  /\ (inner_loop i blo bhi j2len js newm best).2 =
     foldl upd best (item <$> (pair i <$> filter (fun j => blo <= j < bhi) js)).
Proof.
  intros Hprev js. induction js as [|j js IH]; intros newm best Hs Hk.
  - cbn [inner_loop fst snd]. split; [|done]. intros j'.
    rewrite decide_False; [done|]. intros [Hj _]. by apply elem_of_nil in Hj.
  - apply StronglySorted_cons in Hs as [Hj Hs]. rewrite Forall_forall in Hj.
    assert (Hk' : forall j0, j0 ∈ js -> kept_at i j0 = true).
    { intros j0 Hj0. apply Hk. by apply list_elem_of_further. }
    cbn [inner_loop]. destruct (decide (j < blo)) as [Hlo|Hlo].
    { (* continue *)
      destruct (IH newm best Hs Hk') as [IH1 IH2]. split.
      - intros j'. rewrite IH1. apply decide_ext.
        rewrite elem_of_cons. split; [intros [? ?]; by auto|].
        intros [[->|?] ?]; [lia|done].
      - rewrite IH2, filter_cons. by rewrite decide_False by lia. }
    destruct (decide (bhi <= j)) as [Hhi|Hhi].
    { (* break *)
      cbn [fst snd]. split.
      - intros j'. rewrite decide_False; [done|].
        intros [[->|Hj']%elem_of_cons ?]; [lia|]. specialize (Hj j' Hj'). lia.
      - rewrite filter_none; [done|].
        intros j' [->|Hj']%elem_of_cons; [lia|]. specialize (Hj j' Hj'). lia. }
    (* a[i] matches b[j] inside the window *)
    rewrite (j2len_step i j j2len Hprev) by (by (lia || apply Hk, list_elem_of_here)).
    change (if decide (size_of best < run_length i j)
            then (S i - run_length i j, S j - run_length i j, run_length i j)
            else best) with (upd best (item (i, j))).
    destruct (IH (<[j := run_length i j]> newm) (upd best (item (i, j))) Hs Hk')
      as [IH1 IH2]. split.
    + intros j'. rewrite IH1. destruct (decide (j' = j)) as [->|Hne].
      * rewrite decide_False by (intros [Hj' _]; specialize (Hj j Hj'); lia).
        rewrite lookup_insert_eq. cbn [default].
        rewrite decide_True; [done|]. split; [apply list_elem_of_here | lia].
      * rewrite lookup_insert_ne by done. apply decide_ext.
        rewrite elem_of_cons. split; [intros [? ?]; by auto|].
        intros [[?|?] ?]; done.
    + rewrite IH2, filter_cons, decide_True by lia. done.
Qed.

(** The blocks met by the rows [i, i+n), in the order of the loops. *)
Fixpoint ends_from (n i : nat) : list (nat * nat) :=
  match n with
  | 0 => []
  | S n' =>
      (pair i <$> filter (fun j => blo <= j < bhi) (js_of i))
      ++ ends_from n' (S i)
  end.

Lemma row_loop_spec n : forall i j2len best,
  alo <= i -> j2len_before i j2len ->
  row_loop a b2j n i blo bhi j2len best =
  foldl upd best (item <$> ends_from n i).
Proof.
  induction n as [|n IH]; intros i j2len best Hi Hprev; [done|].
  cbn [row_loop ends_from]. fold (js_of i).
  destruct (inner_loop_spec i j2len Hprev (js_of i) ∅ best (js_of_sorted i))
    as [H1 H2]; [intros j; apply elem_of_js_of|].
  destruct (inner_loop i blo bhi j2len (js_of i) ∅ best) as [newj2len best'].
  cbn [fst snd] in H1, H2. rewrite fmap_app, foldl_app, <- H2.
  apply IH; [lia|]. intros j'. rewrite H1, lookup_empty. cbn [default].
  replace (S i - 1) with i by lia.
  destruct (decide (blo <= j' < bhi)) as [Hw|Hw].
  - rewrite (decide_True (P := alo < S i /\ _)) by lia.
    destruct (decide (j' ∈ js_of i /\ _)) as [_|Hn]; [done|].
    symmetry. apply run_length_not_kept.
    destruct (kept_at i j') eqn:Hk; [|done].
    destruct Hn. split; [by apply elem_of_js_of | done].
  - rewrite (decide_False (P := alo < S i /\ _)) by lia.
    rewrite decide_False; [done|]. intros [_ ?]. done.
Qed.

Lemma elem_of_ends_from n : forall i p,
  p ∈ ends_from n i <->
  i <= p.1 < i + n /\ blo <= p.2 < bhi /\ kept_at p.1 p.2 = true.
Proof.
  induction n as [|n IH]; intros i [i' j']; cbn [ends_from fst snd].
  - rewrite elem_of_nil. split; [done | lia].
  - rewrite elem_of_app, IH, list_elem_of_fmap. cbn [fst snd]. split.
    + intros [(j & [= -> ->] & Hj) | (? & ? & ?)]; [|split; [lia|done]].
      apply list_elem_of_filter in Hj as [Hw Hj].
      split; [lia|]. split; [done|]. by apply elem_of_js_of.
    + intros (Hi & Hw & Hk). destruct (decide (i' = i)) as [->|Hne].
      * left. exists j'. split; [done|]. apply list_elem_of_filter.
        split; [done|]. by apply elem_of_js_of.
      * right. split; [lia|done].
Qed.

Lemma ends_from_sorted n : forall i, StronglySorted lex_lt (ends_from n i).
Proof.
  induction n as [|n IH]; intros i; cbn [ends_from]; [constructor|].
  apply StronglySorted_app_2; [| |apply IH].
  - intros [i1 j1] [i2 j2] H1 H2.
    apply list_elem_of_fmap in H1 as (j & [= -> ->] & _).
    apply elem_of_ends_from in H2. cbn [fst snd] in H2. left. cbn. lia.
  - apply StronglySorted_pair_row, StronglySorted_filter, js_of_sorted.
Qed.

(** The rows of [find_longest_match] find the longest block of kept
    elements, the earliest one among the longest. *)
Lemma row_loop_longest :
  alo <= ahi -> blo <= bhi ->
  longest_in kept_at (alo, ahi, blo, bhi)
    (row_loop a b2j (ahi - alo) alo blo bhi ∅ (alo, blo, 0)).
Proof.
  intros Ha Hb. rewrite row_loop_spec; [|lia|].
  2:{ intros j'. rewrite lookup_empty. cbn [default].
      rewrite decide_False; [done|lia]. }
  (* every non-empty block of the window ends at a candidate *)
  assert (Hend : forall m', 0 < m'.2 -> in_window (alo, ahi, blo, bhi) m' ->
            is_block kept_at m' ->
            let e := (m'.1.1 + m'.2 - 1, m'.1.2 + m'.2 - 1) in
            e ∈ ends_from (ahi - alo) alo /\ m'.2 <= run_length e.1 e.2).
  { intros [[i' j'] k'] Hk' (Hw1 & Hw2 & Hw3 & Hw4) Hblk. cbn in *. split.
    - apply elem_of_ends_from. cbn. split; [lia|]. split; [lia|].
      specialize (Hblk (k' - 1)). cbn in Hblk.
      replace (i' + k' - 1) with (i' + (k' - 1)) by lia.
      replace (j' + k' - 1) with (j' + (k' - 1)) by lia. apply Hblk. lia.
    - apply run_length_max; [lia|lia|]. intros t Ht.
      specialize (Hblk (k' - 1 - t)). cbn in Hblk.
      replace (i' + k' - 1 - t) with (i' + (k' - 1 - t)) by lia.
      replace (j' + k' - 1 - t) with (j' + (k' - 1 - t)) by lia.
      apply Hblk. lia. }
  destruct (foldl_upd_first_max lex_lt item _ (ends_from_sorted (ahi - alo) alo)
              (alo, blo, 0)) as [[-> Hall] | (e0 & He0 & -> & Hpos & Hall)].
  - (* nothing matches *)
    split; [unfold in_window; cbn; lia|].
    split; [intros t Ht; cbn in Ht; lia|]. split; [done|].
    intros m' Hk' Hw' Hb'. destruct (Hend m' Hk' Hw' Hb') as [He Hr].
    specialize (Hall _ He). unfold size_of, item in Hall. cbn in Hall, Hr. cbn. lia.
  - destruct e0 as [i0 j0]. apply elem_of_ends_from in He0.
    unfold size_of, item in Hpos. cbn in He0, Hpos.
    destruct (run_length_bound i0 j0) as [Hr1 Hr2]; [lia|lia|].
    split; [unfold in_window, item; cbn; lia|]. split.
    { intros t Ht. unfold item in *. cbn in *.
      replace (S i0 - run_length i0 j0 + t) with (i0 - (run_length i0 j0 - 1 - t)) by lia.
      replace (S j0 - run_length i0 j0 + t) with (j0 - (run_length i0 j0 - 1 - t)) by lia.
      apply run_length_block. lia. }
    split; [unfold item; cbn; lia|].
    intros m' Hk' Hw' Hb'. destruct (Hend m' Hk' Hw' Hb') as [He Hr].
    destruct (Hall _ He) as [Hle Heq]. unfold size_of, item, lex_lt in *. cbn in *.
    split; [lia|]. intros Hsame.
    destruct Heq as [[= Hi Hj] | [Hlt | [Hi Hlt]]]; cbn in *; lia.
Qed.

End Window.
End LongestMatch.

(** ** [find_longest_match] *)

Section FindLongestMatch.
Import Difflib.
Context `{Countable A}.
Implicit Types (a b : list A).

(** The loops that grow the block keep it inside the window. *)
Lemma extend_left_bounds a b junk alo blo : forall bi bj bs,
  alo <= bi -> blo <= bj ->
  let r := extend_left a b junk alo blo bi bj bs in
  alo <= r.1.1 /\ blo <= r.1.2 /\ r.1.1 <= bi
  /\ r.1.1 + r.2 = bi + bs /\ r.1.2 + r.2 = bj + bs.
Proof.
  induction bi as [|bi IH]; intros bj bs Hi Hj; [cbn; lia|].
  destruct bj as [|bj]; [cbn; lia|]. cbn [extend_left].
  destruct (_ && _) eqn:Hg; [|cbn; lia].
  rewrite !andb_true_iff, !bool_decide_eq_true in Hg.
  destruct (IH bj (S bs)) as (? & ? & ? & ? & ?); [lia|lia|]. cbn zeta. lia.
Qed.

Lemma extend_right_bounds a b junk ahi bhi bi bj n : forall bs,
  bi + bs <= ahi -> bj + bs <= bhi ->
  let r := extend_right a b junk ahi bhi bi bj n bs in
  bs <= r /\ bi + r <= ahi /\ bj + r <= bhi.
Proof.
  induction n as [|n IH]; intros bs Hi Hj; [cbn; lia|]. cbn [extend_right].
  destruct (_ && _) eqn:Hg; [|cbn; lia].
  rewrite !andb_true_iff, !bool_decide_eq_true in Hg.
  destruct (IH (S bs)) as (? & ? & ?); [lia|lia|]. cbn zeta. lia.
Qed.

Lemma extend_in_window a b junk alo ahi blo bhi m :
  in_window (alo, ahi, blo, bhi) m ->
  in_window (alo, ahi, blo, bhi) (extend a b junk alo ahi blo bhi m)
  /\ m.2 <= (extend a b junk alo ahi blo bhi m).2.
Proof.
  destruct m as [[bi bj] bs]. unfold in_window, extend. cbn [fst snd].
  intros (H1 & H2 & H3 & H4).
  pose proof (extend_left_bounds a b junk alo blo bi bj bs H1 H3) as Hl.
  destruct (extend_left a b junk alo blo bi bj bs) as [[bi' bj'] bs'].
  cbn [fst snd] in Hl. destruct Hl as (? & ? & ? & ? & ?).
  pose proof (extend_right_bounds a b junk ahi bhi bi' bj'
                (ahi - (bi' + bs')) bs') as Hr.
  cbn zeta in Hr. cbn beta iota zeta. cbn [fst snd].
  destruct Hr as (? & ? & ?); [lia|lia|]. lia.
Qed.

(** Whatever [b2j] has lost to [autojunk], the block returned lies in the
    window. *)
Lemma find_longest_match_in_window a b alo ahi blo bhi :
  alo <= ahi -> blo <= bhi ->
  in_window (alo, ahi, blo, bhi)
    (find_longest_match a b (chain_b b) alo ahi blo bhi).
Proof.
  intros Ha Hb. unfold find_longest_match.
  apply extend_in_window, extend_in_window.
  apply (row_loop_longest a b (kept b) (chain_b b) (chain_b_lookup b)
           alo ahi blo bhi Ha Hb).
Qed.

(** On a longest block of equal elements the growing loops do nothing. *)
Lemma extend_longest a b junk alo ahi blo bhi m :
  longest_in (same_at a b) (alo, ahi, blo, bhi) m ->
  extend a b junk alo ahi blo bhi m = m.
Proof.
  destruct m as [[bi bj] bs]. intros (Hw & Hb & _ & Hmax).
  unfold in_window in Hw. cbn [fst snd] in Hw.
  assert (Hleft : extend_left a b junk alo blo bi bj bs = (bi, bj, bs)).
  { destruct bi as [|bi]; [done|]. destruct bj as [|bj]; [done|].
    cbn [extend_left]. destruct (_ && _) eqn:Hg; [|done]. exfalso.
    rewrite !andb_true_iff, !bool_decide_eq_true in Hg.
    destruct Hg as [[[? ?] _] Hs].
    destruct (Hmax (bi, bj, S bs)) as [Hle _]; cbn [fst snd] in *; [lia| | |].
    - unfold in_window. cbn. lia.
    - intros [|t] Ht; cbn [fst snd] in *; [by rewrite !Nat.add_0_r|].
      replace (bi + S t) with (S bi + t) by lia.
      replace (bj + S t) with (S bj + t) by lia. apply (Hb t). cbn. lia.
    - lia. }
  assert (Hright : forall n, extend_right a b junk ahi bhi bi bj n bs = bs).
  { intros [|n]; [done|]. cbn [extend_right].
    destruct (_ && _) eqn:Hg; [|done]. exfalso.
    rewrite !andb_true_iff, !bool_decide_eq_true in Hg.
    destruct Hg as [[[? ?] _] Hs].
    destruct (Hmax (bi, bj, S bs)) as [Hle _]; cbn [fst snd] in *; [lia| | |].
    - unfold in_window. cbn. lia.
    - intros t Ht. cbn [fst snd] in *.
      destruct (decide (t = bs)) as [->|Hne]; [done|]. apply (Hb t). cbn. lia.
    - lia. }
  unfold extend. by rewrite Hleft, Hright.
Qed.

Lemma kept_at_all a b i j : kept_at a b (fun _ => true) i j = same_at a b i j.
Proof.
  unfold kept_at, same_at. destruct (a !! i), (b !! j); try done.
  by rewrite andb_true_r.
Qed.

Lemma longest_in_ext (f g : nat -> nat -> bool) w m :
  (forall i j, f i j = g i j) -> longest_in f w m -> longest_in g w m.
Proof.
  intros Hfg (Hw & Hb & Hz & Hmax). split; [done|]. split.
  { intros t Ht. rewrite <- Hfg. by apply Hb. }
  split; [done|]. intros m' Hk' Hw' Hb'. apply Hmax; [done|done|].
  intros t Ht. rewrite Hfg. by apply Hb'.
Qed.

(** With fewer than 200 elements in [b], [find_longest_match] meets its
    contract: the longest common block of the window, the earliest in [a]
    and then in [b] among the longest. *)
Lemma find_longest_match_longest a b alo ahi blo bhi :
  length b < 200 -> alo <= ahi -> blo <= bhi ->
  longest_in (same_at a b) (alo, ahi, blo, bhi)
    (find_longest_match a b (chain_b b) alo ahi blo bhi).
Proof.
  intros Hlen Ha Hb.
  assert (Hrows : longest_in (same_at a b) (alo, ahi, blo, bhi)
            (row_loop a (chain_b b) (ahi - alo) alo blo bhi ∅ (alo, blo, 0))).
  { apply (longest_in_ext (kept_at a b (fun _ => true))); [apply kept_at_all|].
    apply row_loop_longest; [|done|done].
    intros x. rewrite chain_b_lookup. by rewrite kept_short. }
  unfold find_longest_match.
  by rewrite (extend_longest _ _ false _ _ _ _ _ Hrows),
    (extend_longest _ _ true _ _ _ _ _ Hrows).
Qed.

End FindLongestMatch.

(** ** The specification's longest block *)

Section SpecBlock.
Import Difflib.
Context `{EqDecision A}.
Implicit Types (a b : list A).

Lemma common_prefix_length_bound a : forall b,
  Spec.common_prefix_length a b <= length a
  /\ Spec.common_prefix_length a b <= length b.
Proof.
  induction a as [|x a IH]; intros [|y b]; cbn; try lia.
  case_decide; [|lia]. destruct (IH b). lia.
Qed.

Lemma common_prefix_length_same a : forall b t,
  t < Spec.common_prefix_length a b -> same_at a b t t = true.
Proof.
  induction a as [|x a IH]; intros [|y b] t; cbn; try lia.
  case_decide as Hxy; [|lia]. subst y. intros Ht.
  destruct t as [|t].
  - unfold same_at. cbn. by rewrite bool_decide_true.
  - apply (IH b t). lia.
Qed.

Lemma common_prefix_length_max a : forall b k,
  (forall t, t < k -> same_at a b t t = true) ->
  k <= Spec.common_prefix_length a b.
Proof.
  induction a as [|x a IH]; intros b k Hk.
  - destruct k; [lia|]. by specialize (Hk 0 ltac:(lia)).
  - destruct k as [|k]; [lia|]. destruct b as [|y b].
    + by specialize (Hk 0 ltac:(lia)).
    + cbn. pose proof (Hk 0 ltac:(lia)) as H0. unfold same_at in H0. cbn in H0.
      apply bool_decide_eq_true in H0. rewrite decide_True by done.
      apply le_n_S, IH. intros t Ht. apply (Hk (S t)). lia.
Qed.

Lemma same_at_drop a b i j t u :
  same_at (drop i a) (drop j b) t u = same_at a b (i + t) (j + u).
Proof. unfold same_at. by rewrite !lookup_drop. Qed.

Lemma keep_longer_upd : Spec.keep_longer = upd.
Proof. done. Qed.

Lemma list_prod_nil_r {B C} (l : list B) : list_prod l (@nil C) = [].
Proof. induction l; [done|]. done. Qed.

(** The specification's longest block meets the contract of
    [find_longest_match] on the whole of [a] and [b]. *)
Lemma longest_common_block_longest a b :
  longest_in (same_at a b) (0, length a, 0, length b)
    (Spec.longest_common_block a b).
Proof.
  unfold Spec.longest_common_block. rewrite keep_longer_upd.
  set (keys := list_prod (seq 0 (length a)) (seq 0 (length b))).
  assert (Hkeys : forall p, p ∈ keys <-> p.1 < length a /\ p.2 < length b).
  { intros [i j]. unfold keys. rewrite list_elem_of_In, in_prod_iff.
    rewrite <- !list_elem_of_In, !elem_of_seq. cbn. lia. }
  assert (Hsorted : StronglySorted lex_lt keys).
  { apply StronglySorted_list_prod; apply StronglySorted_seq. }
  (* every non-empty block starts at a candidate *)
  assert (Hstart : forall m', 0 < m'.2 ->
            in_window (0, length a, 0, length b) m' ->
            is_block (same_at a b) m' ->
            (m'.1.1, m'.1.2) ∈ keys
            /\ m'.2 <= size_of (Spec.block_at a b (m'.1.1, m'.1.2))).
  { intros [[i' j'] k'] Hk' (_ & Hw2 & _ & Hw4) Hblk. cbn in *. split.
    - apply Hkeys. cbn. lia.
    - unfold size_of, Spec.block_at. cbn.
      apply common_prefix_length_max. intros t Ht.
      rewrite same_at_drop. by apply Hblk. }
  destruct (foldl_upd_first_max lex_lt (Spec.block_at a b) keys Hsorted (0, 0, 0))
    as [[-> Hall] | (p0 & Hp0 & -> & Hpos & Hall)].
  - split; [unfold in_window; cbn; lia|].
    split; [intros t Ht; cbn in Ht; lia|]. split; [done|].
    intros m' Hk' Hw' Hb'. destruct (Hstart m' Hk' Hw' Hb') as [Hin Hle].
    specialize (Hall _ Hin). unfold size_of in *. cbn in *. lia.
  - destruct p0 as [i0 j0]. apply Hkeys in Hp0. cbn in Hp0.
    unfold size_of, Spec.block_at in Hpos. cbn in Hpos.
    destruct (common_prefix_length_bound (drop i0 a) (drop j0 b)) as [Hb1 Hb2].
    rewrite !length_drop in *.
    split; [unfold in_window, Spec.block_at; cbn; lia|]. split.
    { intros t Ht. unfold Spec.block_at in *. cbn in *.
      rewrite <- same_at_drop. by apply common_prefix_length_same. }
    split; [unfold Spec.block_at; cbn; lia|].
    intros m' Hk' Hw' Hb'. destruct (Hstart m' Hk' Hw' Hb') as [Hin Hle].
    destruct (Hall _ Hin) as [Hle' Heq].
    unfold size_of, Spec.block_at, lex_lt in *. cbn in *.
    split; [lia|]. intros Hsame.
    destruct Heq as [[= Hi Hj] | [Hlt | [Hi Hlt]]]; cbn in *; lia.
Qed.

Lemma longest_common_block_nil_l b : Spec.longest_common_block [] b = (0, 0, 0).
Proof. done. Qed.

Lemma longest_common_block_nil_r a : Spec.longest_common_block a [] = (0, 0, 0).
Proof. unfold Spec.longest_common_block. cbn [length seq]. by rewrite list_prod_nil_r. Qed.

Lemma matched_length_nil_l n b : Spec.matched_length n [] b = 0.
Proof. destruct n; [done|]. cbn. done. Qed.

Lemma matched_length_nil_r n a : Spec.matched_length n a [] = 0.
Proof.
  destruct n; [done|]. cbn [Spec.matched_length].
  by rewrite longest_common_block_nil_r.
Qed.

(** The depth bound [length a] is enough: any larger one gives the same
    total. *)
Lemma matched_length_fuel n : forall m a b,
  length a <= n -> length a <= m ->
  Spec.matched_length n a b = Spec.matched_length m a b.
Proof.
  induction n as [|n IH]; intros m a b Hn Hm.
  - destruct a; [|cbn in Hn; lia]. by rewrite !matched_length_nil_l.
  - destruct m as [|m].
    { destruct a; [|cbn in Hm; lia]. by rewrite !matched_length_nil_l. }
    cbn [Spec.matched_length].
    pose proof (longest_common_block_longest a b) as (Hw & _).
    destruct (Spec.longest_common_block a b) as [[i j] k].
    unfold in_window in Hw. cbn in Hw.
    case_decide; [done|].
    rewrite (IH m (take i a)), (IH m (drop (i + k) a)); [done|..];
      rewrite ?length_take, ?length_drop; lia.
Qed.

(** The recursion of the Ratcliff/Obershelp total, unfolded once. *)
Lemma ratcliff_obershelp_matches_unfold a b :
  Spec.ratcliff_obershelp_matches a b =
    let '(i, j, k) := Spec.longest_common_block a b in
    if decide (k = 0) then 0
    else k + Spec.ratcliff_obershelp_matches (take i a) (take j b)
           + Spec.ratcliff_obershelp_matches (drop (i + k) a) (drop (j + k) b).
Proof.
  unfold Spec.ratcliff_obershelp_matches.
  pose proof (longest_common_block_longest a b) as (Hw & _).
  destruct a as [|x a].
  { by rewrite longest_common_block_nil_l. }
  cbn [length Spec.matched_length].
  destruct (Spec.longest_common_block (x :: a) b) as [[i j] k].
  unfold in_window in Hw. cbn [fst snd length] in Hw.
  case_decide; [done|].
  rewrite (matched_length_fuel (length a) (length (take i (x :: a)))),
    (matched_length_fuel (length a) (length (drop (i + k) (x :: a))));
    [done|..]; rewrite ?length_take, ?length_drop; cbn [length]; lia.
Qed.

End SpecBlock.

(** ** [get_matching_blocks] and the Ratcliff/Obershelp recursion *)

Section MatchingBlocks.
Import Difflib.
Context `{Countable A}.
Implicit Types (a b : list A).

(** The slice [l[lo:hi]]. *)
Definition slice (l : list A) (lo hi : nat) : list A := take (hi - lo) (drop lo l).

Lemma length_slice l lo hi : lo <= hi <= length l -> length (slice l lo hi) = hi - lo.
Proof. intros Hl. unfold slice. rewrite length_take, length_drop. lia. Qed.

Lemma lookup_slice l lo hi t :
  t < hi - lo -> slice l lo hi !! t = l !! (lo + t).
Proof. intros Ht. unfold slice. by rewrite lookup_take_lt, lookup_drop. Qed.

Lemma slice_full l : slice l 0 (length l) = l.
Proof. unfold slice. rewrite drop_0, Nat.sub_0_r. by apply take_ge. Qed.

Lemma take_slice l lo hi i :
  i <= hi - lo -> take i (slice l lo hi) = slice l lo (lo + i).
Proof.
  intros Hi. unfold slice. rewrite take_take.
  f_equal. lia.
Qed.

Lemma drop_slice l lo hi i :
  i <= hi - lo -> drop i (slice l lo hi) = slice l (lo + i) hi.
Proof.
  intros Hi. unfold slice.
  rewrite <- (drop_drop l i lo), (take_drop_commute (drop lo l) (hi - (lo + i)) i).
  by replace (i + (hi - (lo + i))) with (hi - lo) by lia.
Qed.

Lemma same_at_slice a b alo ahi blo bhi i j :
  i < ahi - alo -> j < bhi - blo ->
  same_at (slice a alo ahi) (slice b blo bhi) i j = same_at a b (alo + i) (blo + j).
Proof. intros Hi Hj. unfold same_at. by rewrite !lookup_slice. Qed.

(** A longest block of the slices is, shifted, a longest block of the
    window. *)
Lemma longest_in_slice a b alo ahi blo bhi m :
  alo <= ahi <= length a -> blo <= bhi <= length b ->
  longest_in (same_at (slice a alo ahi) (slice b blo bhi))
    (0, ahi - alo, 0, bhi - blo) m ->
  longest_in (same_at a b) (alo, ahi, blo, bhi) (alo + m.1.1, blo + m.1.2, m.2).
Proof.
  destruct m as [[i j] k]. intros Ha Hb (Hw & Hblk & Hz & Hmax).
  unfold in_window in Hw. cbn [fst snd] in *.
  split; [unfold in_window; cbn; lia|]. split.
  { intros t Ht. cbn [fst snd] in *.
    rewrite <- !Nat.add_assoc, <- (same_at_slice a b alo ahi blo bhi) by lia.
    by apply Hblk. }
  split; [cbn; lia|].
  intros [[i' j'] k'] Hk' Hw' Hblk'. unfold in_window in Hw'. cbn [fst snd] in *.
  destruct (Hmax (i' - alo, j' - blo, k')) as [Hle Heq]; cbn [fst snd].
  - done.
  - unfold in_window. cbn. lia.
  - intros t Ht. cbn [fst snd] in *. rewrite same_at_slice by lia.
    replace (alo + (i' - alo + t)) with (i' + t) by lia.
    replace (blo + (j' - blo + t)) with (j' + t) by lia. by apply Hblk'.
  - cbn [fst snd] in *. split; [done|]. intros Hsame. specialize (Heq Hsame). lia.
Qed.

(** [find_longest_match] on a window is the specification's longest block
    of the two slices. *)
Lemma find_longest_match_slice a b alo ahi blo bhi :
  length b < 200 ->
  alo <= ahi <= length a -> blo <= bhi <= length b ->
  find_longest_match a b (chain_b b) alo ahi blo bhi =
    let m := Spec.longest_common_block (slice a alo ahi) (slice b blo bhi) in
    (alo + m.1.1, blo + m.1.2, m.2).
Proof.
  intros Hlen Ha Hb.
  apply (longest_in_unique (same_at a b) (alo, ahi, blo, bhi)).
  - apply find_longest_match_longest; lia.
  - apply longest_in_slice; [done|done|].
    pose proof (longest_common_block_longest (slice a alo ahi) (slice b blo bhi)) as Hl.
    by rewrite !length_slice in Hl.
Qed.

(** The regions on the stack. *)
Definition region_ok a b (w : region) : Prop :=
  w.1.1.1 <= w.1.1.2 <= length a /\ w.1.2 <= w.2 <= length b.

Definition region_size (w : region) : nat := 2 * (w.1.1.2 - w.1.1.1) + 1.

Definition sizes (l : list block) : nat := sum_list (size_of <$> l).

Lemma sizes_app l1 l2 : sizes (l1 ++ l2) = sizes l1 + sizes l2.
Proof. unfold sizes. by rewrite fmap_app, sum_list_with_app. Qed.

(** The Ratcliff/Obershelp total of a region. *)
Definition region_total a b (w : region) : nat :=
  Spec.ratcliff_obershelp_matches
    (slice a w.1.1.1 w.1.1.2) (slice b w.1.2 w.2).

Lemma ratcliff_obershelp_matches_nil_r a : Spec.ratcliff_obershelp_matches a [] = 0.
Proof. apply matched_length_nil_r. Qed.

Lemma slice_empty l lo : slice l lo lo = [].
Proof. unfold slice. by rewrite Nat.sub_diag. Qed.

(** The loop of [get_matching_blocks] ends, and the blocks it collects
    add up to the Ratcliff/Obershelp totals of the pending regions. *)
Lemma blocks_loop_sum a b : length b < 200 ->
  forall fuel queue acc,
  Forall (region_ok a b) queue ->
  sum_list (region_size <$> queue) < fuel ->
  exists res, blocks_loop a b (chain_b b) fuel queue acc = Some res
    /\ sizes res = sizes acc + sum_list (region_total a b <$> queue).
Proof.
  intros Hlen. induction fuel as [|fuel IH]; intros queue acc Hok Hfuel; [lia|].
  destruct queue as [|[[[alo ahi] blo] bhi] queue]; cbn [blocks_loop].
  { exists acc. split; [done|]. cbn. lia. }
  apply Forall_cons in Hok as [[Ha Hb] Hok]. cbn [fst snd] in Ha, Hb.
  rewrite fmap_cons in Hfuel. cbn in Hfuel.
  rewrite find_longest_match_slice by done. cbn zeta.
  rewrite fmap_cons. cbn [sum_list_with].
  unfold region_total at 1. cbn [fst snd].
  rewrite ratcliff_obershelp_matches_unfold.
  pose proof (longest_common_block_longest (slice a alo ahi) (slice b blo bhi))
    as (Hw & _).
  rewrite !length_slice in Hw by done.
  destruct (Spec.longest_common_block (slice a alo ahi) (slice b blo bhi))
    as [[i j] k].
  unfold in_window in Hw. cbn [fst snd] in *.
  destruct (decide (k = 0)) as [->|Hk].
  { destruct (IH queue acc Hok) as (res & Hres & Hsum); [lia|].
    exists res. split; [done|]. cbn. lia. }
  rewrite take_slice, take_slice, drop_slice, drop_slice by lia.
  set (left := (alo, alo + i, blo, blo + j) : region).
  set (right := (alo + i + k, ahi, blo + j + k, bhi) : region).
  set (queue1 := if decide (alo < alo + i /\ blo < blo + j)
                 then left :: queue else queue).
  set (queue2 := if decide (alo + i + k < ahi /\ blo + j + k < bhi)
                 then right :: queue1 else queue1).
  assert (Hleft : sum_list (region_total a b <$> queue1)
            = region_total a b left + sum_list (region_total a b <$> queue)
          /\ sum_list (region_size <$> queue1)
             <= region_size left + sum_list (region_size <$> queue)
          /\ Forall (region_ok a b) queue1).
  { unfold queue1. case_decide as Hd.
    - split; [done|]. split; [done|]. apply Forall_cons. split; [|done].
      unfold region_ok, left. cbn. lia.
    - split; [|split; [lia|done]].
      unfold region_total, left. cbn [fst snd].
      destruct (decide (i = 0)) as [->|Hi].
      + by rewrite Nat.add_0_r, slice_empty.
      + assert (j = 0) as -> by lia.
        by rewrite Nat.add_0_r, (slice_empty b), ratcliff_obershelp_matches_nil_r. }
  destruct Hleft as (Hl1 & Hl2 & Hl3).
  assert (Hright : sum_list (region_total a b <$> queue2)
            = region_total a b right + sum_list (region_total a b <$> queue1)
          /\ sum_list (region_size <$> queue2)
             <= region_size right + sum_list (region_size <$> queue1)
          /\ Forall (region_ok a b) queue2).
  { unfold queue2. case_decide as Hd.
    - split; [done|]. split; [done|]. apply Forall_cons. split; [|done].
      unfold region_ok, right. cbn. lia.
    - split; [|split; [lia|done]].
      unfold region_total, right. cbn [fst snd].
      destruct (decide (alo + i + k = ahi)) as [->|Hi].
      + by rewrite slice_empty.
      + assert (blo + j + k = bhi) as -> by lia.
        by rewrite (slice_empty b), ratcliff_obershelp_matches_nil_r. }
  destruct Hright as (Hr1 & Hr2 & Hr3).
  destruct (IH queue2 (acc ++ [(alo + i, blo + j, k)]) Hr3) as (res & Hres & Hsum).
  { unfold region_size, left, right in *. cbn [fst snd] in *. lia. }
  exists res. split; [done|].
  rewrite Hsum, sizes_app, Hr1, Hl1.
  unfold region_total, left, right, sizes, size_of. cbn [fst snd].
  rewrite <- !Nat.add_assoc. cbn. lia.
Qed.

(** The same loop never runs out of fuel, whatever [autojunk] removed. *)
Lemma blocks_loop_total a b : forall fuel queue acc,
  Forall (fun w : region => w.1.1.1 <= w.1.1.2 /\ w.1.2 <= w.2) queue ->
  sum_list (region_size <$> queue) < fuel ->
  is_Some (blocks_loop a b (chain_b b) fuel queue acc).
Proof.
  induction fuel as [|fuel IH]; intros queue acc Hok Hfuel; [lia|].
  destruct queue as [|[[[alo ahi] blo] bhi] queue]; cbn [blocks_loop]; [done|].
  apply Forall_cons in Hok as [[Ha Hb] Hok]. cbn [fst snd] in Ha, Hb.
  rewrite fmap_cons in Hfuel. cbn in Hfuel.
  pose proof (find_longest_match_in_window a b alo ahi blo bhi Ha Hb) as Hw.
  destruct (find_longest_match a b (chain_b b) alo ahi blo bhi) as [[i j] k].
  unfold in_window in Hw. cbn [fst snd] in Hw.
  case_decide; [apply IH; [done|lia]|].
  apply IH.
  - repeat case_decide; repeat (apply Forall_cons; split); try done; cbn; lia.
  - repeat case_decide; rewrite ?fmap_cons; cbn; lia.
Qed.

Lemma get_matching_blocks_fuel a b :
  is_Some (blocks_loop a b (chain_b b) (matching_blocks_fuel a)
             [(0, length a, 0, length b)] []).
Proof.
  apply blocks_loop_total.
  - apply Forall_singleton. cbn. lia.
  - unfold matching_blocks_fuel. cbn. lia.
Qed.

Lemma sizes_cons m l : sizes (m :: l) = size_of m + sizes l.
Proof. done. Qed.

Lemma sizes_nil : sizes [] = 0.
Proof. done. Qed.

(** Joining adjacent blocks keeps the total size. *)
Lemma join_adjacent_sizes blocks : forall cur acc,
  sizes (join_adjacent blocks cur acc) = sizes acc + size_of cur + sizes blocks.
Proof.
  induction blocks as [|[[i2 j2] k2] blocks IH]; intros [[i1 j1] k1] acc.
  - cbn [join_adjacent]. case_decide as Hz.
    + rewrite Hz, sizes_nil. lia.
    + rewrite sizes_app, sizes_cons, sizes_nil. lia.
  - cbn [join_adjacent]. rewrite sizes_cons. case_decide.
    + rewrite IH. unfold size_of. cbn [fst snd]. lia.
    + rewrite IH. case_decide.
      * subst k1. unfold size_of. cbn [fst snd]. lia.
      * rewrite sizes_app, sizes_cons, sizes_nil. unfold size_of. cbn [fst snd]. lia.
Qed.

Lemma sizes_merge_sort l : sizes (merge_sort block_le l) = sizes l.
Proof. unfold sizes. by rewrite merge_sort_Permutation. Qed.

(** The total size of the blocks of [get_matching_blocks] is the total of
    the blocks its loop collects. *)
Lemma matches_loop a b b2j res :
  blocks_loop a b b2j (matching_blocks_fuel a) [(0, length a, 0, length b)] []
    = Some res ->
  matches a b b2j = sizes res.
Proof.
  intros Hres. unfold matches.
  match goal with |- sum_list (size_of <$> ?l) = _ => change (sizes l = sizes res) end.
  unfold get_matching_blocks. rewrite Hres. cbn [default]. unfold id.
  rewrite sizes_app, join_adjacent_sizes, sizes_merge_sort.
  rewrite sizes_cons, !sizes_nil. unfold size_of. cbn [fst snd]. lia.
Qed.

(** For a second sequence of fewer than 200 elements, the count of
    matches behind [ratio] is the Ratcliff/Obershelp total [M]. *)
Lemma matches_ratcliff_obershelp a b :
  length b < 200 ->
  matches a b (chain_b b) = Spec.ratcliff_obershelp_matches a b.
Proof.
  intros Hlen.
  destruct (blocks_loop_sum a b Hlen (matching_blocks_fuel a)
              [(0, length a, 0, length b)] []) as (res & Hres & Hsum).
  - apply Forall_singleton. unfold region_ok. cbn. lia.
  - unfold matching_blocks_fuel, region_size. cbn. lia.
  - rewrite (matches_loop a b _ res Hres), Hsum.
    rewrite sizes_nil. unfold region_total. cbn [fmap list_fmap fst snd sum_list_with].
    rewrite !slice_full. cbn. lia.
Qed.

End MatchingBlocks.

(** ** The character similarity of [find_closest_match] *)

(** A text of 200 characters. *)
Definition text_200a : pystr := replicate 200 "a"%char.

Section CharSimilarity.
Import PyStr Float64 AppleTTS.

(** C2, as stated, fails twice.  The candidate is not stripped, so a text
    with a leading blank is compared as it is (ratio 10/11, not 1); and for
    a text of 200 characters [difflib] drops the popular character [a]
    from its index and finds no block at all (ratio 0, not 2/202). *)
Lemma char_similarity_counterexample :
  char_similarity (Spec.normalize (str "hello")) (lower (str " hello"))
    <> Spec.ratcliff_obershelp (Spec.normalize (str "hello"))
         (Spec.normalize (str " hello"))
  /\ char_similarity (Spec.normalize (str "xa")) (lower text_200a)
     <> Spec.ratcliff_obershelp (Spec.normalize (str "xa"))
          (Spec.normalize text_200a).
Proof. split; by vm_compute. Qed.

(** C2 (amended).  For a candidate that is no exact match and whose
    lower-cased text, the string handed to [difflib], has fewer than 200
    characters, the character similarity is
    [2 * M / T] (computed as [2.0 * M / T]): [M] is the total length of the
    blocks found by taking the longest common block of the normalized query
    and the lower-cased text (the earliest in the query, then in the text,
    among the longest) and recursing on the remainders to its left and to
    its right, and [T] is the sum of the two lengths. *)
Theorem char_similarity_ratcliff_obershelp (q : pystr) (r : sample) :
  lower (words r) <> Spec.normalize q ->
  length (lower (words r)) < 200 ->
  char_similarity (Spec.normalize q) (lower (words r)) =
    Spec.ratcliff_obershelp (Spec.normalize q) (lower (words r)).
Proof.
  intros Hne Hlen. unfold char_similarity, Difflib.ratio, Difflib.calculate_ratio.
  rewrite matches_ratcliff_obershelp by done.
  rewrite decide_False; [done|]. intros Hz.
  destruct (Spec.normalize q), (lower (words r)); done.
Qed.

Lemma char_similarity_ratcliff_obershelp_witness :
  char_similarity (Spec.normalize (str "good morning"))
                  (lower (words (mk_sample "u2" "good night everyone"))) =
    Spec.ratcliff_obershelp (Spec.normalize (str "good morning"))
                  (lower (words (mk_sample "u2" "good night everyone"))).
Proof.
  apply (char_similarity_ratcliff_obershelp (str "good morning")
           (mk_sample "u2" "good night everyone")).
  - by vm_compute.
  - vm_compute. lia.
Defined.

End CharSimilarity.

(** ** Lookup by utterance name *)

Section Lookup.
Import AppleTTS.

(** X1.  [find_sample_by_id] returns the first sample with the given
    utterance name: the sample found sits at some position of the corpus,
    carries the name, and no sample before it does. *)
Theorem find_sample_by_id_first (samples : list sample) (name : pystr) (s : sample) :
  find_sample_by_id samples name = Some s ->
  exists i, samples !! i = Some s
    /\ utterance_name s = name
    /\ forall j s', j < i -> samples !! j = Some s' -> utterance_name s' <> name.
Proof.
  induction samples as [|x l IH]; [done|]. cbn [find_sample_by_id].
  case_bool_decide as Hx.
  - intros [= ->]. exists 0. split; [done|]. split; [done|]. intros j s' Hj. lia.
  - intros Hs. destruct (IH Hs) as (i & Hi & Hn & Hfirst).
    exists (S i). split; [done|]. split; [done|].
    intros [|j] s' Hj Hl.
    + by injection Hl as <-.
    + apply (Hfirst j); [lia|done].
Qed.

Lemma find_sample_by_id_first_witness :
  exists i, corpus_greetings !! i = Some (mk_sample "u2" "good night everyone")
    /\ utterance_name (mk_sample "u2" "good night everyone") = str "u2"
    /\ forall j s', j < i -> corpus_greetings !! j = Some s' ->
         utterance_name s' <> str "u2".
Proof.
  apply (find_sample_by_id_first corpus_greetings (str "u2")).
  vm_compute. reflexivity.
Defined.

(** X2.  A missing id: [find_sample_by_id] answers [None] exactly when no
    sample of the corpus carries the name (the comparison is exact, case
    included), and [analyze_phonemes] answers [None] in exactly those
    cases. *)
Theorem find_sample_by_id_none (samples : list sample) (name : pystr) :
  (find_sample_by_id samples name = None <->
   forall s, s ∈ samples -> utterance_name s <> name)
  /\ (analyze_phonemes samples name = None <->
      find_sample_by_id samples name = None).
Proof.
  split.
  - induction samples as [|x l IH]; cbn [find_sample_by_id].
    + split; [|done]. intros _ s Hs. by apply elem_of_nil in Hs.
    + case_bool_decide as Hx.
      * split; [done|]. intros Hall.
        destruct (Hall x); [apply list_elem_of_here|done].
      * rewrite IH. split.
        -- intros Hall s [->|Hs]%elem_of_cons; [done|by apply Hall].
        -- intros Hall s Hs. apply Hall. by apply list_elem_of_further.
  - unfold analyze_phonemes. by destruct (find_sample_by_id samples name).
Qed.

(** X3.  When the utterance names of the corpus are pairwise distinct,
    looking up the name of any sample of the corpus returns that sample. *)
Theorem find_sample_by_id_unique (samples : list sample) (s : sample) :
  NoDup (utterance_name <$> samples) ->
  s ∈ samples ->
  find_sample_by_id samples (utterance_name s) = Some s.
Proof.
  induction samples as [|x l IH]; intros Hnd Hs.
  - by apply elem_of_nil in Hs.
  - rewrite fmap_cons in Hnd. apply NoDup_cons in Hnd as [Hx Hnd].
    cbn [find_sample_by_id]. apply elem_of_cons in Hs as [->|Hs].
    + by rewrite bool_decide_true.
    + rewrite bool_decide_false; [by apply IH|].
      intros Heq. apply Hx. rewrite Heq. by apply list_elem_of_fmap_2.
Qed.

Lemma find_sample_by_id_unique_witness :
  find_sample_by_id corpus_greetings
    (utterance_name (mk_sample "u2" "good night everyone"))
  = Some (mk_sample "u2" "good night everyone").
Proof.
  apply (find_sample_by_id_unique corpus_greetings).
  - apply (bool_decide_unpack _). by vm_compute.
  - apply (bool_decide_unpack _). by vm_compute.
Defined.

End Lookup.

(** ** Splitting and joining the phone sequence *)

Section SplitJoin.
Import PyStr AppleTTS Main.

(** Characters still to be skipped are dropped. *)
Lemma split_sep_go_skip sep skip : forall cur s,
  skip <= length s ->
  split_sep_go sep skip cur s = split_sep_go sep 0 cur (drop skip s).
Proof.
  induction skip as [|k IH]; intros cur s Hlen; [by rewrite drop_0|].
  destruct s as [|c s]; [cbn in Hlen; lia|].
  cbn [split_sep_go drop]. apply IH. cbn in Hlen. lia.
Qed.

(** After a separator found at the head of [sep ++ t], the scan goes on
    with [t]. *)
Lemma split_sep_go_match c sep' cur t :
  split_sep_go (c :: sep') 0 cur ((c :: sep') ++ t) =
  rev cur :: split_sep_go (c :: sep') 0 [] t.
Proof.
  cbn [app split_sep_go].
  replace (starts_with (c :: sep') (c :: sep' ++ t)) with true.
  2:{ symmetry. apply starts_with_spec. by exists t. }
  replace (length (c :: sep') - 1) with (length sep') by (cbn; lia).
  rewrite split_sep_go_skip by (rewrite length_app; lia).
  by rewrite drop_app_length.
Qed.

Lemma join_cons sep x rest :
  rest <> [] -> join sep (x :: rest) = x ++ sep ++ join sep rest.
Proof. by destruct rest. Qed.

Lemma split_sep_go_nonempty sep skip cur s : split_sep_go sep skip cur s <> [].
Proof.
  pose proof (split_sep_go_length sep skip cur s) as Hl.
  intros Heq. rewrite Heq in Hl. cbn in Hl. lia.
Qed.

Lemma join_split_sep_go sep n : forall s cur,
  sep <> [] -> length s <= n ->
  join sep (split_sep_go sep 0 cur s) = rev cur ++ s.
Proof.
  induction n as [|n IH]; intros s cur Hsep Hlen.
  { destruct s; [|cbn in Hlen; lia]. cbn. by rewrite app_nil_r. }
  destruct s as [|c s]; [cbn; by rewrite app_nil_r|].
  destruct (starts_with sep (c :: s)) eqn:Hst.
  - apply starts_with_spec in Hst as [t Ht]. rewrite Ht.
    destruct sep as [|c0 sep']; [done|].
    rewrite split_sep_go_match, join_cons by apply split_sep_go_nonempty.
    rewrite IH; [done|done|].
    assert (length (c :: s) = length ((c0 :: sep') ++ t)) as Hl by by rewrite Ht.
    rewrite length_app in Hl. cbn in Hl, Hlen. lia.
  - cbn [split_sep_go]. rewrite Hst, IH by (done || (cbn in Hlen; lia)).
    cbn [rev]. by rewrite <- app_assoc.
Qed.

(** Joining the pieces of a split with the separator gives the string
    back. *)
Lemma join_split_sep sep s : sep <> [] -> join sep (split_sep sep s) = s.
Proof.
  intros Hsep. unfold split_sep.
  by rewrite (join_split_sep_go sep (length s)).
Qed.

(** While a piece is read, no separator starts inside it. *)
Definition no_start (sep cur s : pystr) : Prop :=
  forall k v, v <> [] -> rev cur = k ++ v -> starts_with sep (v ++ s) = false.

Lemma split_sep_go_pieces sep n : forall s cur,
  sep <> [] -> length s <= n -> no_start sep cur s ->
  forall piece, piece ∈ split_sep_go sep 0 cur s -> ~ is_substring sep piece.
Proof.
  assert (Hemit : forall cur s, sep <> [] -> no_start sep cur s ->
            ~ is_substring sep (rev cur)).
  { intros cur s Hsep Hns (pre & post & Heq).
    assert (starts_with sep ((sep ++ post) ++ s) = true) as Htrue.
    { apply starts_with_spec. exists (post ++ s). by rewrite <- app_assoc. }
    rewrite (Hns pre (sep ++ post)) in Htrue; [done| |done].
    by destruct sep. }
  induction n as [|n IH]; intros s cur Hsep Hlen Hns piece Hp.
  { destruct s; [|cbn in Hlen; lia]. cbn in Hp.
    apply list_elem_of_singleton in Hp as ->. by eapply Hemit. }
  destruct s as [|c s].
  { cbn in Hp. apply list_elem_of_singleton in Hp as ->. by eapply Hemit. }
  destruct (starts_with sep (c :: s)) eqn:Hst.
  - pose proof Hst as Hst'. apply starts_with_spec in Hst' as [t Ht].
    rewrite Ht in Hp. destruct sep as [|c0 sep']; [done|].
    rewrite split_sep_go_match in Hp.
    apply elem_of_cons in Hp as [->|Hp]; [by eapply Hemit|].
    apply (IH t []); [done| | |done].
    + assert (length (c :: s) = length ((c0 :: sep') ++ t)) as Hl by by rewrite Ht.
      rewrite length_app in Hl. cbn in Hl, Hlen. lia.
    + intros k v Hv Hk. cbn in Hk. symmetry in Hk.
      apply app_eq_nil in Hk as [_ ->]. done.
  - cbn [split_sep_go] in Hp. rewrite Hst in Hp.
    apply (IH s (c :: cur)); [done|cbn in Hlen; lia| |done].
    intros k v Hv Hk. cbn [rev] in Hk.
    destruct v as [|x v _] using rev_ind; [done|].
    rewrite app_assoc in Hk. apply app_inj_tail in Hk as [Hk <-].
    rewrite <- app_assoc. cbn [app].
    destruct v as [|y v]; [done|]. by apply (Hns k).
Qed.

(** X4.  For a sample found by its id, joining the phonemes reported by
    [analyze_phonemes] with [" # "] gives back the sample's phone sequence:
    the split loses nothing. *)
Theorem analyze_phonemes_join (samples : list sample) (name : pystr) (s : sample) :
  find_sample_by_id samples name = Some s ->
  exists a, analyze_phonemes samples name = Some a
    /\ join (str " # ") (phonemes a) = phone_sequence s
    /\ full_sequence a = phone_sequence s.
Proof.
  intros Hs. unfold analyze_phonemes. rewrite Hs. eexists. split; [done|].
  cbn [phonemes full_sequence]. split; [|done]. by apply join_split_sep.
Qed.

(** A sample with three phonemes. *)
Definition sample_phones : sample :=
  Sample (str "p1") (str "good morning") (str "greeting") (Float64.of_Z 1)
         (str "g UH d # m AO r # n IH ng") (str "").

Lemma analyze_phonemes_join_witness :
  exists a, analyze_phonemes [sample_phones] (str "p1") = Some a
    /\ join (str " # ") (phonemes a) = phone_sequence sample_phones
    /\ full_sequence a = phone_sequence sample_phones.
Proof.
  apply (analyze_phonemes_join [sample_phones] (str "p1") sample_phones).
  reflexivity.
Defined.

(** X5.  No phoneme reported by [analyze_phonemes] contains the delimiter
    [" # "]. *)
Theorem analyze_phonemes_no_delimiter (samples : list sample) (name : pystr)
    (a : analysis) (p : pystr) :
  analyze_phonemes samples name = Some a ->
  p ∈ phonemes a ->
  ~ is_substring (str " # ") p.
Proof.
  unfold analyze_phonemes. destruct (find_sample_by_id samples name) as [s|]; [|done].
  intros [= <-]. cbn [phonemes]. unfold split_sep.
  apply (split_sep_go_pieces _ (length (phone_sequence s))); [done|done|].
  intros k v Hv Hk. cbn in Hk. symmetry in Hk.
  apply app_eq_nil in Hk as [_ ->]. done.
Qed.

Lemma analyze_phonemes_no_delimiter_witness :
  ~ is_substring (str " # ") (str "m AO r").
Proof.
  eapply (analyze_phonemes_no_delimiter [sample_phones] (str "p1")).
  - vm_compute. reflexivity.
  - apply (bool_decide_unpack _). by vm_compute.
Defined.

End SplitJoin.

(** ** The categories of [get_stats] *)

Section Categories.
Import PyStr AppleTTS.

Lemma str_leb_total s : forall t, str_leb s t = true \/ str_leb t s = true.
Proof.
  induction s as [|x s IH]; intros [|y t]; cbn [str_leb]; auto.
  rewrite !orb_true_iff, !andb_true_iff, !Nat.ltb_lt, !Nat.eqb_eq.
  destruct (Nat.lt_trichotomy (code x) (code y)) as [Hlt|[Heq|Hgt]].
  - by left; left.
  - destruct (IH t); [left | right]; right; by split.
  - by right; left.
Qed.

Lemma str_leb_trans s : forall t u,
  str_leb s t = true -> str_leb t u = true -> str_leb s u = true.
Proof.
  induction s as [|x s IH]; intros [|y t] [|z u]; cbn [str_leb]; try done.
  rewrite !orb_true_iff, !andb_true_iff, !Nat.ltb_lt, !Nat.eqb_eq.
  intros [H1|[H1 H1']] [H2|[H2 H2']]; try (left; lia).
  right. split; [lia|]. by apply (IH t).
Qed.

#[local] Instance str_le_total : Total str_le.
Proof. intros s t. apply str_leb_total. Qed.

#[local] Instance str_le_trans : Transitive str_le.
Proof. intros s t u. apply str_leb_trans. Qed.

(** What [get_stats] returns on a corpus that is not empty. *)
Lemma get_stats_ret (samples : list sample) (st : stats) :
  get_stats samples = ret st ->
  samples <> []
  /\ total_samples st = length samples
  /\ categories st = size (list_to_set (script_title <$> samples) : gset pystr)
  /\ category_names st =
       merge_sort str_le
         (elements (list_to_set (script_title <$> samples) : gset pystr)).
Proof.
  unfold get_stats, truediv. case_decide as Hn; [done|].
  intros [= <-]. split; [by destruct samples|]. done.
Qed.

(** A corpus with two categories. *)
Definition corpus_mixed : list sample :=
  [Sample (str "w1") (str "rain tomorrow") (str "weather") (Float64.of_Z 2)
          (str "r EY n") (str "");
   mk_sample "u1" "good morning everyone";
   Sample (str "w2") (str "sunny today") (str "weather") (Float64.of_Z 3)
          (str "s AH n") (str "")].

(** X6.  The category names reported by [get_stats] are sorted, without
    duplicates, and are exactly the script titles that occur in the corpus;
    [categories] is their number. *)
Theorem get_stats_category_names (samples : list sample) (st : stats) :
  get_stats samples = ret st ->
  StronglySorted str_le (category_names st)
  /\ NoDup (category_names st)
  /\ (forall c, c ∈ category_names st <->
                exists s, s ∈ samples /\ script_title s = c)
  /\ categories st = length (category_names st).
Proof.
  intros (_ & _ & Hc & Hn)%get_stats_ret. rewrite Hn, Hc.
  split; [apply StronglySorted_merge_sort; apply _|].
  split; [rewrite merge_sort_Permutation; apply NoDup_elements|].
  split.
  - intros c. rewrite merge_sort_Permutation, elem_of_elements,
      elem_of_list_to_set, list_elem_of_fmap. split.
    + intros (s & -> & Hs). by exists s.
    + intros (s & Hs & <-). by exists s.
  - by rewrite merge_sort_Permutation.
Qed.

Lemma get_stats_category_names_witness :
  exists st, get_stats corpus_mixed = ret st
  /\ StronglySorted str_le (category_names st)
  /\ NoDup (category_names st)
  /\ (forall c, c ∈ category_names st <->
                exists s, s ∈ corpus_mixed /\ script_title s = c)
  /\ categories st = length (category_names st).
Proof.
  eexists. split; [vm_compute; reflexivity|].
  apply (get_stats_category_names corpus_mixed). vm_compute. reflexivity.
Defined.

(** X7.  Every category that [get_stats] lists has at least one sample:
    [filter_by_category] on a listed name is never empty, so the average
    per category that [generate_report] computes never divides by zero. *)
Theorem listed_category_not_empty (samples : list sample) (st : stats) (c : pystr) :
  get_stats samples = ret st ->
  c ∈ category_names st ->
  0 < length (filter_by_category samples c).
Proof.
  intros (_ & _ & _ & Hn)%get_stats_ret. rewrite Hn.
  rewrite merge_sort_Permutation, elem_of_elements, elem_of_list_to_set,
    list_elem_of_fmap.
  intros (s & -> & Hs). unfold filter_by_category.
  assert (s ∈ filter (fun s0 => script_title s0 = script_title s) samples) as Hin
    by by apply list_elem_of_filter.
  destruct (filter _ samples); [by apply elem_of_nil in Hin | cbn; lia].
Qed.

Lemma listed_category_not_empty_witness :
  0 < length (filter_by_category corpus_mixed (str "weather")).
Proof.
  eapply (listed_category_not_empty corpus_mixed).
  - vm_compute. reflexivity.
  - apply (bool_decide_unpack _). by vm_compute.
Defined.

(** Each sample is counted under exactly one name of a duplicate-free list
    that holds its title. *)
Lemma count_one (x : pystr) (cs : list pystr) :
  NoDup cs -> x ∈ cs ->
  sum_list ((fun c => if decide (x = c) then 1 else 0) <$> cs) = 1.
Proof.
  induction 1 as [|c cs Hc Hnd IH]; intros Hx; [by apply elem_of_nil in Hx|].
  rewrite fmap_cons. cbn [sum_list_with]. unfold id at 1.
  apply elem_of_cons in Hx as [->|Hx].
  - rewrite decide_True by done.
    assert (sum_list ((fun c0 => if decide (c = c0) then 1 else 0) <$> cs) = 0) as ->;
      [|done].
    clear IH Hnd. induction cs as [|d cs IH]; [done|].
    rewrite fmap_cons. cbn [sum_list_with]. unfold id at 1.
    rewrite decide_False by (intros ->; apply Hc, list_elem_of_here).
    rewrite IH; [done|]. intros Hd. by apply Hc, list_elem_of_further.
  - rewrite decide_False by (intros ->; done). by rewrite IH.
Qed.

Lemma sum_filter_cons (s : sample) (l : list sample) (cs : list pystr) :
  sum_list ((fun c => length (filter_by_category (s :: l) c)) <$> cs)
  = sum_list ((fun c => if decide (script_title s = c) then 1 else 0) <$> cs)
    + sum_list ((fun c => length (filter_by_category l c)) <$> cs).
Proof.
  induction cs as [|c cs IHc]; [done|].
  rewrite !fmap_cons. cbn [sum_list_with]. rewrite IHc. unfold id.
  unfold filter_by_category at 1. rewrite filter_cons.
  fold (filter_by_category l c). case_decide; cbn [length]; lia.
Qed.

Lemma partition_by_title (samples : list sample) (cs : list pystr) :
  NoDup cs -> (forall s, s ∈ samples -> script_title s ∈ cs) ->
  sum_list ((fun c => length (filter_by_category samples c)) <$> cs)
  = length samples.
Proof.
  intros Hnd. induction samples as [|s l IH]; intros Hall.
  - clear Hnd Hall. induction cs as [|c cs IHc]; [done|].
    rewrite fmap_cons. cbn [sum_list_with]. by rewrite IHc.
  - rewrite sum_filter_cons, count_one, IH; [done| |done|].
    + intros s' Hs'. by apply Hall, list_elem_of_further.
    + apply Hall, list_elem_of_here.
Qed.

(** X8.  The categories that [get_stats] lists split the corpus: the sizes
    of the lists that [filter_by_category] returns for them add up to
    [total_samples]. *)
Theorem categories_partition (samples : list sample) (st : stats) :
  get_stats samples = ret st ->
  sum_list ((fun c => length (filter_by_category samples c)) <$> category_names st)
  = total_samples st.
Proof.
  intros Hst. destruct (get_stats_ret _ _ Hst) as (_ & -> & _ & Hn).
  apply partition_by_title.
  - rewrite Hn, merge_sort_Permutation. apply NoDup_elements.
  - intros s Hs. rewrite Hn, merge_sort_Permutation, elem_of_elements,
      elem_of_list_to_set. by apply list_elem_of_fmap_2.
Qed.

Lemma categories_partition_witness :
  exists st, get_stats corpus_mixed = ret st
  /\ sum_list ((fun c => length (filter_by_category corpus_mixed c))
                <$> category_names st)
     = total_samples st.
Proof.
  eexists. split; [vm_compute; reflexivity|].
  apply (categories_partition corpus_mixed). vm_compute. reflexivity.
Defined.

End Categories.

(** ** Narrowing a search *)

Section SearchMore.
Import PyStr AppleTTS.

Lemma is_substring_trans (p q s : pystr) :
  is_substring p q -> is_substring q s -> is_substring p s.
Proof.
  intros (a1 & b1 & ->) (a2 & b2 & ->).
  exists (a2 ++ a1), (b1 ++ b2). by rewrite <- !app_assoc.
Qed.

Lemma filter_sublist {B} (f g : B -> bool) (l : list B) :
  (forall x, f x = true -> g x = true) ->
  List.filter f l `sublist_of` List.filter g l.
Proof.
  intros Hfg. induction l as [|x l IH]; cbn [List.filter]; [done|].
  destruct (f x) eqn:Hf.
  - rewrite (Hfg x Hf). by apply sublist_skip.
  - destruct (g x); [by apply sublist_cons | done].
Qed.

(** X9.  A longer query narrows the search: when the lower-cased first
    query occurs in the lower-cased second one, every sample found for the
    second is found for the first, in the same order. *)
Theorem search_samples_narrows (samples : list sample) (q1 q2 : pystr) :
  is_substring (lower q1) (lower q2) ->
  search_samples samples q2 `sublist_of` search_samples samples q1.
Proof.
  intros Hsub. unfold search_samples. rewrite !search_loop_filter.
  cbn [app]. apply filter_sublist. intros s Hs.
  apply contains_spec. apply contains_spec in Hs.
  by apply (is_substring_trans _ (lower q2)).
Qed.

Lemma search_samples_narrows_witness :
  search_samples corpus_greetings (str "Good N")
    `sublist_of` search_samples corpus_greetings (str "OOD").
Proof.
  apply search_samples_narrows.
  apply (bool_decide_unpack _). by vm_compute.
Defined.

End SearchMore.

(** ** What [find_closest_match] returns *)

Section ClosestMore.
Import PyStr Float64 AppleTTS.

(** A returned sample is in the corpus; it is an exact match of the
    normalized query or it passed the threshold of the scored pass. *)
Lemma returned_sample_cases (samples : list sample) (q : pystr) (r : sample) :
  find_closest_match samples q = Some r ->
  r ∈ samples
  /\ (lower (words r) = strip (lower q)
      \/ ltb c0_3 (score_of (strip (lower q)) r) = true).
Proof.
  destruct (find_closest_match_cases samples q)
    as [(r' & Hf & ->) | (_ & bm & bs & Hinv & ->)].
  - intros [= ->]. apply find_some in Hf as [Hin He].
    split; [by apply list_elem_of_In|]. left.
    unfold is_exact in He. by apply bool_decide_eq_true in He.
  - destruct (ltb c0_3 bs) eqn:Hthr; [|done]. intros ->. cbn in Hinv.
    destruct Hinv as (i & Hi & -> & _).
    split; [by eapply list_elem_of_lookup_2 | by right].
Qed.

Lemma ltb_c0_3_zero_or_nan x : zero_or_nan x -> ltb c0_3 x = false.
Proof. by destruct x. Qed.

(** X10.  A sample returned by [find_closest_match] is a sample of the
    corpus.  Either its lower-cased text equals the lower-cased, stripped
    query, or no sample of the corpus is such an exact match and its score
    is strictly above 0.3. *)
Theorem find_closest_match_sound (samples : list sample) (q : pystr) (r : sample) :
  find_closest_match samples q = Some r ->
  r ∈ samples
  /\ (lower (words r) = strip (lower q)
      \/ ((forall r', r' ∈ samples -> lower (words r') <> strip (lower q))
          /\ ltb c0_3 (score_of (strip (lower q)) r) = true)).
Proof.
  destruct (find_closest_match_cases samples q)
    as [(r' & Hf & ->) | (Hne & bm & bs & Hinv & ->)].
  - intros [= ->]. apply find_some in Hf as [Hin He].
    split; [by apply list_elem_of_In|]. left.
    unfold is_exact in He. by apply bool_decide_eq_true in He.
  - destruct (ltb c0_3 bs) eqn:Hthr; [|done]. intros ->. cbn in Hinv.
    destruct Hinv as (i & Hi & -> & _).
    split; [by eapply list_elem_of_lookup_2 | by right].
Qed.

Lemma find_closest_match_sound_witness :
  mk_sample "u1" "good morning everyone" ∈ corpus_greetings
  /\ (lower (words (mk_sample "u1" "good morning everyone"))
        = strip (lower (str "good morning"))
      \/ ((forall r', r' ∈ corpus_greetings ->
            lower (words r') <> strip (lower (str "good morning")))
          /\ ltb c0_3 (score_of (strip (lower (str "good morning")))
                        (mk_sample "u1" "good morning everyone")) = true)).
Proof.
  apply (find_closest_match_sound corpus_greetings (str "good morning")).
  vm_compute. reflexivity.
Defined.

End ClosestMore.

(** ** How much two strings can match *)

Section MatchBounds.
Import Difflib.
Context `{Countable A}.
Implicit Types (a b : list A).

(** The narrower side of a pending region. *)
Definition region_width (w : region) : nat :=
  (w.1.1.2 - w.1.1.1) `min` (w.2 - w.1.2).

(** The blocks collected by the loop of [get_matching_blocks] fit side by
    side in the pending regions, with or without [autojunk]. *)
Lemma blocks_loop_bound a b : forall fuel queue acc res,
  Forall (fun w : region => w.1.1.1 <= w.1.1.2 /\ w.1.2 <= w.2) queue ->
  blocks_loop a b (chain_b b) fuel queue acc = Some res ->
  sizes res <= sizes acc + sum_list (region_width <$> queue).
Proof.
  induction fuel as [|fuel IH]; intros queue acc res Hok Hres; [done|].
  destruct queue as [|[[[alo ahi] blo] bhi] queue]; cbn [blocks_loop] in Hres.
  { injection Hres as <-. cbn. lia. }
  apply Forall_cons in Hok as [[Ha Hb] Hok]. cbn [fst snd] in Ha, Hb.
  pose proof (find_longest_match_in_window a b alo ahi blo bhi Ha Hb) as Hw.
  destruct (find_longest_match a b (chain_b b) alo ahi blo bhi) as [[i j] k].
  unfold in_window in Hw. cbn [fst snd] in Hw.
  rewrite fmap_cons. cbn [sum_list_with]. unfold region_width at 1. cbn [fst snd].
  case_decide as Hk.
  { apply IH in Hres; [unfold id in *; lia|done]. }
  set (queue1 := if decide (alo < i /\ blo < j)
                 then (alo, i, blo, j) :: queue else queue) in Hres.
  set (queue2 := if decide (i + k < ahi /\ j + k < bhi)
                 then (i + k, ahi, j + k, bhi) :: queue1 else queue1) in Hres.
  assert (H1 : sum_list (region_width <$> queue1)
               <= (i - alo) `min` (j - blo) + sum_list (region_width <$> queue)
               /\ Forall (fun w : region => w.1.1.1 <= w.1.1.2 /\ w.1.2 <= w.2) queue1).
  { unfold queue1. case_decide.
    - split; [done|]. apply Forall_cons. split; [cbn; lia|done].
    - split; [lia|done]. }
  destruct H1 as [H1 H1'].
  assert (H2 : sum_list (region_width <$> queue2)
               <= (ahi - (i + k)) `min` (bhi - (j + k))
                  + sum_list (region_width <$> queue1)
               /\ Forall (fun w : region => w.1.1.1 <= w.1.1.2 /\ w.1.2 <= w.2) queue2).
  { unfold queue2. case_decide.
    - split; [done|]. apply Forall_cons. split; [cbn; lia|done].
    - split; [lia|done]. }
  destruct H2 as [H2 H2'].
  apply IH in Hres; [|done]. clearbody queue1 queue2.
  rewrite sizes_app, sizes_cons, sizes_nil in Hres. unfold size_of in Hres.
  cbn [fst snd] in Hres. unfold id in *. lia.
Qed.

(** The matched length behind [ratio] exceeds the length of neither
    sequence. *)
Lemma matches_bound a b :
  matches a b (chain_b b) <= length a /\ matches a b (chain_b b) <= length b.
Proof.
  destruct (get_matching_blocks_fuel a b) as [res Hres].
  rewrite (matches_loop a b _ res Hres).
  apply blocks_loop_bound in Hres.
  - rewrite sizes_nil in Hres. cbn in Hres. unfold region_width in Hres.
    cbn [fst snd] in Hres. lia.
  - apply Forall_singleton. cbn. lia.
Qed.

(** Two sequences without a common element have no matching block. *)
Lemma find_longest_match_disjoint a b alo ahi blo bhi :
  (forall i j, same_at a b i j = false) ->
  alo <= ahi -> blo <= bhi ->
  find_longest_match a b (chain_b b) alo ahi blo bhi = (alo, blo, 0).
Proof.
  intros Hdis Ha Hb. unfold find_longest_match.
  pose proof (row_loop_longest a b (kept b) (chain_b b) (chain_b_lookup b)
                alo ahi blo bhi Ha Hb) as (_ & Hblk & Hz & _).
  destruct (row_loop a (chain_b b) (ahi - alo) alo blo bhi ∅ (alo, blo, 0))
    as [[i j] k].
  cbn [fst snd] in *.
  assert (k = 0) as ->.
  { destruct k as [|k]; [done|]. specialize (Hblk 0 ltac:(cbn; lia)).
    cbn [fst snd] in Hblk. unfold kept_at in Hblk.
    specialize (Hdis (i + 0) (j + 0)). unfold same_at in Hdis.
    destruct (a !! (i + 0)), (b !! (j + 0)); try done.
    rewrite Hdis in Hblk. done. }
  destruct Hz as [-> ->]; [done|].
  assert (Hext : forall junk, extend a b junk alo ahi blo bhi (alo, blo, 0)
                              = (alo, blo, 0)).
  { intros junk. unfold extend.
    assert (extend_left a b junk alo blo alo blo 0 = (alo, blo, 0)) as ->.
    { destruct alo as [|alo']; [done|]. destruct blo as [|blo']; [done|].
      cbn [extend_left]. by rewrite Hdis, andb_false_r. }
    destruct (ahi - (alo + 0)) as [|n]; [done|]. cbn [extend_right].
    by rewrite Hdis, andb_false_r. }
  by rewrite !Hext.
Qed.

Lemma matches_disjoint a b :
  (forall x, x ∈ a -> x ∉ b) -> matches a b (chain_b b) = 0.
Proof.
  intros Hdis.
  assert (Hsame : forall i j, same_at a b i j = false).
  { intros i j. unfold same_at.
    destruct (a !! i) as [x|] eqn:Hx, (b !! j) as [y|] eqn:Hy; try done.
    apply bool_decide_eq_false. intros ->.
    apply (Hdis y); by eapply list_elem_of_lookup_2. }
  rewrite (matches_loop a b _ []); [done|].
  unfold matching_blocks_fuel.
  replace (2 * length a + 2) with (S (S (2 * length a))) by lia.
  cbn [blocks_loop]. rewrite find_longest_match_disjoint by (done || lia).
  by rewrite decide_True.
Qed.

End MatchBounds.

Section ScoreBounds.
Import PyStr Float64 AppleTTS.

(** X12.  The character similarity is [2.0 * M / T] for a matched length
    [M] that exceeds neither the length of the query nor that of the text,
    whatever their lengths: twice [M] is at most [T]. *)
Theorem char_similarity_matched_length (text sample_text : pystr) :
  exists M,
    char_similarity text sample_text
      = Difflib.calculate_ratio M (length text + length sample_text)
    /\ M <= length text /\ M <= length sample_text
    /\ 2 * M <= length text + length sample_text.
Proof.
  exists (Difflib.matches text sample_text (Difflib.chain_b sample_text)).
  destruct (matches_bound text sample_text) as [H1 H2].
  split; [done|]. lia.
Qed.

(** The words of a string are non-empty and made of its characters. *)
Lemma split_go_tokens s : forall cur t,
  t ∈ split_go cur s -> t <> [] /\ forall c, c ∈ t -> c ∈ cur \/ c ∈ s.
Proof.
  induction s as [|x s IH]; intros cur t; cbn [split_go].
  - destruct cur as [|y cur]; [by intros ?%elem_of_nil|].
    intros ->%list_elem_of_singleton. split.
    + intros Hr. apply (f_equal (@length _)) in Hr.
      rewrite length_rev in Hr. done.
    + intros c Hc. left. by apply list_elem_of_In, in_rev, list_elem_of_In.
  - destruct (is_space x).
    + assert (Hrest : t ∈ split_go [] s ->
                t <> [] /\ forall c, c ∈ t -> c ∈ cur \/ c ∈ x :: s).
      { intros (Hne & Hc)%IH. split; [done|]. intros c Hin.
        destruct (Hc c Hin) as [?%elem_of_nil|?]; [done|].
        right. by apply list_elem_of_further. }
      destruct cur as [|y cur]; [done|].
      intros [->|Ht]%elem_of_cons; [|by apply Hrest]. split.
      * intros Hr. apply (f_equal (@length _)) in Hr.
        rewrite length_rev in Hr. done.
      * intros c Hc. left. by apply list_elem_of_In, in_rev, list_elem_of_In.
    + intros (Hne & Hc)%IH. split; [done|]. intros c Hin.
      destruct (Hc c Hin) as [[->|?]%elem_of_cons|?].
      * right. apply list_elem_of_here.
      * by left.
      * right. by apply list_elem_of_further.
Qed.

Lemma split_tokens s t : t ∈ split s -> exists c, c ∈ t /\ c ∈ s.
Proof.
  intros (Hne & Hc)%split_go_tokens. destruct t as [|c t]; [done|].
  exists c. split; [apply list_elem_of_here|].
  destruct (Hc c) as [?%elem_of_nil|?]; [apply list_elem_of_here|done|done].
Qed.

(** A text that shares no character with a non-empty query scores zero. *)
Lemma score_disjoint (text sample_text : pystr) :
  text <> [] -> (forall c, c ∈ text -> c ∉ sample_text) ->
  zero_or_nan (score text sample_text).
Proof.
  intros Hne Hdis. unfold score, char_similarity, word_bonus, word_overlap.
  apply zero_or_nan_add.
  - unfold Difflib.ratio. rewrite matches_disjoint by done.
    unfold Difflib.calculate_ratio.
    rewrite decide_False by (destruct text; [done | cbn; lia]).
    apply zero_or_nan_div. by apply zero_or_nan_mul_two.
  - apply zero_or_nan_mul_c0_3. case_decide; [done|].
    apply zero_or_nan_div.
    assert ((list_to_set (split text) ∩ list_to_set (split sample_text)
             : gset pystr) = ∅) as ->; [|done].
    apply leibniz_equiv, elem_of_equiv_empty. intros t.
    rewrite elem_of_intersection, !elem_of_list_to_set.
    intros [(c & Hc & Hct)%split_tokens Ht2].
    apply split_go_tokens in Ht2 as [_ Hc2].
    destruct (Hc2 c Hc) as [?%elem_of_nil|Hcs]; [done|]. by apply (Hdis c).
Qed.

(** X11.  For a query whose normalized form is not empty, a sample whose
    lower-cased text shares no character with the normalized query is never
    returned: it is no exact match and its score is zero. *)
Theorem unrelated_text_unmatched (samples : list sample) (q : pystr) (r : sample) :
  strip (lower q) <> [] ->
  (forall c, c ∈ strip (lower q) -> c ∉ lower (words r)) ->
  find_closest_match samples q <> Some r.
Proof.
  intros Hq Hdis [_ [He|Hs]]%returned_sample_cases.
  - destruct (strip (lower q)) as [|c t] eqn:E; [done|].
    apply (Hdis c); [apply list_elem_of_here|]. rewrite He. apply list_elem_of_here.
  - unfold score_of in Hs.
    by rewrite (ltb_c0_3_zero_or_nan _ (score_disjoint _ _ Hq Hdis)) in Hs.
Qed.

Lemma unrelated_text_unmatched_witness :
  find_closest_match [mk_sample "x" "XYZ-123"] (str "Hello")
  <> Some (mk_sample "x" "XYZ-123").
Proof.
  apply unrelated_text_unmatched.
  - by vm_compute.
  - intros c Hc. apply (bool_decide_unpack _).
    revert c Hc. apply Forall_forall. apply (bool_decide_unpack _). by vm_compute.
Defined.

End ScoreBounds.

(** ** The commands read by [main] *)

Section StripEnds.
Import PyStr.

Definition spaces (ws : pystr) : Prop := Forall (fun c => is_space c = true) ws.

Lemma lstrip_spaces_app ws s : spaces ws -> lstrip (ws ++ s) = lstrip s.
Proof. induction 1 as [|c ws Hc _ IH]; [done|]. cbn. by rewrite Hc. Qed.

Lemma rstrip_app_spaces s ws : spaces ws -> rstrip (s ++ ws) = rstrip s.
Proof.
  intros Hws. unfold rstrip.
  rewrite rev_app_distr, lstrip_spaces_app; [done | by apply Forall_rev].
Qed.

Lemma rstrip_snoc_nonspace s c :
  is_space c = false -> rstrip (s ++ [c]) = s ++ [c].
Proof.
  intros Hc. unfold rstrip. rewrite rev_app_distr. cbn [rev app].
  rewrite lstrip_nonspace by done. cbn [rev]. by rewrite rev_involutive.
Qed.

Lemma rstrip_last s t c : rstrip s = t ++ [c] -> is_space c = false.
Proof.
  unfold rstrip. intros Hr. apply (f_equal (@rev _)) in Hr.
  rewrite rev_involutive, rev_app_distr in Hr. cbn in Hr.
  by eapply lstrip_head.
Qed.

Lemma strip_head s c t : strip s = c :: t -> is_space c = false.
Proof.
  intros Hs. apply (lstrip_head (strip s) c t).
  unfold strip in *. by rewrite lstrip_rstrip_lstrip.
Qed.

(** A string ending in a non-space character keeps it when stripped. *)
Lemma strip_snoc_nonspace s c :
  is_space c = false -> exists t, strip (s ++ [c]) = t ++ [c].
Proof.
  intros Hc. unfold strip.
  destruct (lstrip_snoc_nonspace s c Hc) as [t ->].
  exists t. by apply rstrip_snoc_nonspace.
Qed.

Lemma lower_app s t : lower (s ++ t) = lower s ++ lower t.
Proof. apply map_app. Qed.

Lemma lower_eq_app a b : forall u,
  lower u = a ++ b ->
  exists u1 u2, u = u1 ++ u2 /\ lower u1 = a /\ lower u2 = b.
Proof.
  induction a as [|x a IH]; intros u Hu.
  - by exists [], u.
  - destruct u as [|c u]; [done|]. injection Hu as Hc Hu.
    destruct (IH u Hu) as (u1 & u2 & -> & <- & <-).
    exists (c :: u1), u2. by rewrite <- Hc.
Qed.

Lemma lower_length s : length (lower s) = length s.
Proof. apply length_map. Qed.

(** What remains of a stripped line after a keyword that ends in a blank:
    a non-empty argument that has no trailing whitespace. *)
Lemma keyword_rest kw sp u :
  is_space sp = true ->
  starts_with (kw ++ [sp]) (lower u) = true ->
  strip u = u ->
  exists rest d,
    drop (S (length kw)) u = rest ++ [d] /\ is_space d = false.
Proof.
  intros Hsp [t Ht]%starts_with_spec Hu.
  apply lower_eq_app in Ht as (u1 & u2 & -> & Hu1 & _).
  apply lower_eq_app in Hu1 as (k & k2 & -> & Hk & Hk2).
  destruct k2 as [|c [|? ?]]; try done. injection Hk2 as Hc.
  assert (Hspc : is_space c = true) by (by rewrite <- is_space_lower_char, Hc).
  assert (Hlen : length (k ++ [c]) = S (length kw)).
  { rewrite length_app, <- Hk, lower_length. cbn. lia. }
  rewrite drop_app_length' by done.
  destruct u2 as [|x u2] using rev_ind.
  - rewrite app_nil_r in Hu. unfold strip in Hu.
    apply rstrip_last in Hu. congruence.
  - clear IHu2. exists u2, x. split; [done|].
    rewrite app_assoc in Hu. unfold strip in Hu. by apply rstrip_last in Hu.
Qed.

End StripEnds.

Section Commands.
Import PyStr Float64 AppleTTS Main.

Lemma keyword_argument kw sp u :
  is_space sp = true ->
  starts_with (kw ++ [sp]) (lower u) = true ->
  strip u = u ->
  let arg := drop (S (length kw)) u in
  arg <> [] /\ rstrip arg = arg
  /\ strip arg <> [] /\ strip (strip arg) = strip arg.
Proof.
  intros Hsp Hkw Hu arg.
  destruct (keyword_rest kw sp u Hsp Hkw Hu) as (rest & d & Harg & Hd).
  fold arg in Harg. rewrite Harg.
  split; [by destruct rest|]. split; [by apply rstrip_snoc_nonspace|].
  split; [|apply strip_idemp].
  destruct (strip_snoc_nonspace rest d Hd) as [t ->]. by destruct t.
Qed.

(** X13.  No command of the loop of [main] gets an empty argument: the
    query of [search] is not empty and has no trailing whitespace (it keeps
    the leading one); the ids of [play] and [analyze], the category of
    [list] and the text handed to [find_closest_match] are not empty and are
    stripped on both sides.  A line is skipped only when it is blank, and
    a keyword typed alone, in any case and with any whitespace around it,
    falls through to the closest-match branch with the keyword as text. *)
Theorem command_argument_not_empty (line : pystr) :
  match dispatch line with
  | Search query => query <> [] /\ rstrip query = query
  | Play arg | Analyze arg | ListCategory arg | Closest arg =>
      arg <> [] /\ strip arg = arg
  | Ignore | Quit | ShowStats => True
  end
  /\ (dispatch line = Ignore <-> strip line = [])
  /\ (lower (strip line) ∈ [str "search"; str "play"; str "analyze"; str "list"] ->
      dispatch line = Closest (strip line)).
Proof.
  unfold dispatch. pose proof (strip_idemp line) as Hu.
  set (u := strip line) in *. clearbody u. split; [|split].
  - case_decide as Hne; [done|].
    case_decide; [done|]. case_decide; [done|].
    destruct (starts_with (str "search ") (lower u)) eqn:H1.
    { destruct (keyword_argument (str "search") " "%char u eq_refl H1 Hu)
        as (? & ? & _). done. }
    destruct (starts_with (str "play ") (lower u)) eqn:H2.
    { destruct (keyword_argument (str "play") " "%char u eq_refl H2 Hu)
        as (_ & _ & ? & ?). done. }
    destruct (starts_with (str "analyze ") (lower u)) eqn:H3.
    { destruct (keyword_argument (str "analyze") " "%char u eq_refl H3 Hu)
        as (_ & _ & ? & ?). done. }
    destruct (starts_with (str "list ") (lower u)) eqn:H4.
    { destruct (keyword_argument (str "list") " "%char u eq_refl H4 Hu)
        as (_ & _ & ? & ?). done. }
    done.
  - split; [|by intros ->].
    repeat case_decide; try done.
    by repeat (destruct (starts_with _ _); [done|]).
  - intros Hkw.
    assert (Hne : u <> []).
    { intros ->. cbn [lower map] in Hkw.
      repeat (apply elem_of_cons in Hkw as [?|Hkw]; [done|]).
      by apply elem_of_nil in Hkw. }
    rewrite decide_False by done.
    repeat (apply elem_of_cons in Hkw as [->|Hkw]; [done|]).
    by apply elem_of_nil in Hkw.
Qed.

Lemma command_argument_not_empty_witness :
  dispatch (str "  PLAY ") = Closest (strip (str "  PLAY ")).
Proof.
  apply (command_argument_not_empty (str "  PLAY ")).
  apply (bool_decide_unpack _). by vm_compute.
Defined.

(** The text of the default branch is the stripped line, and it normalizes
    to a non-empty query. *)
Lemma dispatch_closest line text :
  dispatch line = Closest text ->
  text = strip line /\ strip (lower text) <> [].
Proof.
  unfold dispatch. pose proof (strip_idemp line) as Hu.
  set (u := strip line) in *. clearbody u.
  repeat case_decide; try done.
  repeat (destruct (starts_with _ _); [done|]).
  intros [= <-]. split; [done|].
  rewrite strip_lower, Hu. by destruct u.
Qed.

(** X14.  A line that reaches the default branch of [main] never selects a
    sample with empty text: the text handed to [find_closest_match] is the
    stripped line, its normalized form is its lower-cased form and is not
    empty, and a returned sample has a non-empty text. *)
Theorem default_branch_text (samples : list sample) (line text : pystr) (r : sample) :
  dispatch line = Closest text ->
  find_closest_match samples text = Some r ->
  text = strip line
  /\ strip (lower text) = lower text
  /\ words r <> [].
Proof.
  intros [-> Hn]%dispatch_closest Hr. split; [done|]. split.
  { by rewrite strip_lower, strip_idemp. }
  intros Hw. apply returned_sample_cases in Hr as [_ [He|Hs]].
  - rewrite Hw in He. by apply Hn.
  - unfold score_of in Hs. rewrite Hw in Hs. cbn [lower map] in Hs.
    by rewrite (ltb_c0_3_zero_or_nan _ (score_empty_text _ Hn)) in Hs.
Qed.

Lemma default_branch_text_witness :
  str "hullo" = strip (str "  hullo ")
  /\ strip (lower (str "hullo")) = lower (str "hullo")
  /\ words (mk_sample "B" "hello") <> [].
Proof.
  apply (default_branch_text corpus_empty_text (str "  hullo ") (str "hullo")).
  - by vm_compute.
  - by vm_compute.
Defined.

End Commands.

Section RoundTrip.
Import PyStr AppleTTS Main.

(** A stripped, non-empty string starts and ends with a non-space
    character. *)
Lemma stripped_ends arg :
  arg <> [] -> strip arg = arg ->
  exists c t d, (arg = c :: t /\ is_space c = false)
    /\ exists t', arg = t' ++ [d] /\ is_space d = false.
Proof.
  intros Hne Hs. destruct arg as [|c t] eqn:E; [done|]. rewrite <- E in *.
  destruct arg as [|d t' _] using rev_ind; [done|].
  exists c, t, d. split.
  - split; [done|]. apply (strip_head (t' ++ [d]) c t). by rewrite Hs.
  - exists t'. split; [done|]. unfold strip in Hs. by apply rstrip_last in Hs.
Qed.

(** The stripped line of a command: the whitespace around it goes, the
    one between keyword and argument stays. *)
Lemma strip_command ws0 kw ws1 arg ws2 c0 :
  spaces ws0 -> spaces ws2 ->
  lower kw <> [] -> hd c0 (lower kw) = c0 -> is_space c0 = false ->
  arg <> [] -> strip arg = arg ->
  strip (ws0 ++ kw ++ ws1 ++ arg ++ ws2) = kw ++ ws1 ++ arg.
Proof.
  intros H0 H2 Hkw Hhd Hc0 Hne Hs.
  destruct (stripped_ends arg Hne Hs) as (c & t & d & _ & t' & -> & Hd).
  destruct kw as [|k kw]; [done|]. cbn in Hhd.
  assert (Hk : is_space k = false) by (by rewrite <- is_space_lower_char, Hhd).
  unfold strip. rewrite lstrip_spaces_app by done.
  rewrite <- app_comm_cons, lstrip_nonspace by done.
  replace (k :: kw ++ ws1 ++ (t' ++ [d]) ++ ws2)
    with (((k :: kw ++ ws1 ++ t') ++ [d]) ++ ws2)
    by (by rewrite <- !app_comm_cons, <- !app_assoc).
  rewrite rstrip_app_spaces by done. rewrite rstrip_snoc_nonspace by done.
  by rewrite <- !app_comm_cons, <- !app_assoc.
Qed.

Lemma strip_spaces_app ws arg : spaces ws -> strip (ws ++ arg) = strip arg.
Proof. intros Hws. unfold strip. by rewrite lstrip_spaces_app. Qed.

Lemma dispatch_keyword ws0 kw ws1 arg ws2 c0 :
  spaces ws0 -> spaces ws2 -> arg <> [] -> strip arg = arg ->
  lower kw <> [] -> hd c0 (lower kw) = c0 -> is_space c0 = false ->
  strip (ws0 ++ kw ++ ws1 ++ arg ++ ws2) = kw ++ ws1 ++ arg
  /\ kw ++ ws1 ++ arg <> []
  /\ lower (kw ++ ws1 ++ arg) = lower kw ++ lower (ws1 ++ arg)
  /\ drop (length (lower kw)) (kw ++ ws1 ++ arg) = ws1 ++ arg.
Proof.
  intros H0 H2 Hne Hs Hkw Hhd Hc0. split; [by eapply strip_command|].
  split; [by destruct kw|]. split; [apply lower_app|].
  rewrite lower_length. by apply drop_app_length'.
Qed.

(** X15.  Commands are recognized whatever the case of the keyword and
    the whitespace around the line: for a non-empty, stripped argument,
    [play], [analyze] and [list] get exactly that argument, while [search]
    gets it together with the whitespace typed after the first blank. *)
Theorem command_round_trip (ws0 ws1 arg ws2 ks kp ka kl : pystr) :
  spaces ws0 -> spaces ws1 -> spaces ws2 ->
  arg <> [] -> strip arg = arg ->
  lower ks = str "search " -> lower kp = str "play " ->
  lower ka = str "analyze " -> lower kl = str "list " ->
  dispatch (ws0 ++ ks ++ ws1 ++ arg ++ ws2) = Search (ws1 ++ arg)
  /\ dispatch (ws0 ++ kp ++ ws1 ++ arg ++ ws2) = Play arg
  /\ dispatch (ws0 ++ ka ++ ws1 ++ arg ++ ws2) = Analyze arg
  /\ dispatch (ws0 ++ kl ++ ws1 ++ arg ++ ws2) = ListCategory arg.
Proof.
  intros H0 H1 H2 Hne Hs Hks Hkp Hka Hkl. unfold dispatch.
  repeat split.
  - destruct (dispatch_keyword ws0 ks ws1 arg ws2 "s"%char)
      as (-> & Hn & -> & Hd); try done; try by rewrite Hks.
    rewrite Hks in *. rewrite decide_False by done. change (length (str "search ")) with 7 in Hd.
    rewrite Hd. by generalize (lower (ws1 ++ arg)).
  - destruct (dispatch_keyword ws0 kp ws1 arg ws2 "p"%char)
      as (-> & Hn & -> & Hd); try done; try by rewrite Hkp.
    rewrite Hkp in *. rewrite decide_False by done. change (length (str "play ")) with 5 in Hd.
    rewrite Hd, strip_spaces_app, Hs by done.
    by generalize (lower (ws1 ++ arg)).
  - destruct (dispatch_keyword ws0 ka ws1 arg ws2 "a"%char)
      as (-> & Hn & -> & Hd); try done; try by rewrite Hka.
    rewrite Hka in *. rewrite decide_False by done. change (length (str "analyze ")) with 8 in Hd.
    rewrite Hd, strip_spaces_app, Hs by done.
    by generalize (lower (ws1 ++ arg)).
  - destruct (dispatch_keyword ws0 kl ws1 arg ws2 "l"%char)
      as (-> & Hn & -> & Hd); try done; try by rewrite Hkl.
    rewrite Hkl in *. rewrite decide_False by done. change (length (str "list ")) with 5 in Hd.
    rewrite Hd, strip_spaces_app, Hs by done.
    by generalize (lower (ws1 ++ arg)).
Qed.

Lemma command_round_trip_witness :
  dispatch (str " " ++ str "SEARCH " ++ str "  " ++ str "Good Morning" ++ str "  ")
    = Search (str "  " ++ str "Good Morning")
  /\ dispatch (str " " ++ str "Play " ++ str "  " ++ str "Good Morning" ++ str "  ")
    = Play (str "Good Morning")
  /\ dispatch (str " " ++ str "analyze " ++ str "  " ++ str "Good Morning" ++ str "  ")
    = Analyze (str "Good Morning")
  /\ dispatch (str " " ++ str "LiSt " ++ str "  " ++ str "Good Morning" ++ str "  ")
    = ListCategory (str "Good Morning").
Proof.
  apply (command_round_trip (str " ") (str "  ") (str "Good Morning") (str "  ")
           (str "SEARCH ") (str "Play ") (str "analyze ") (str "LiSt ")).
  - by repeat constructor.
  - by repeat constructor.
  - by repeat constructor.
  - done.
  - by vm_compute.
  - by vm_compute.
  - by vm_compute.
  - by vm_compute.
  - by vm_compute.
Defined.

End RoundTrip.

(** ** From the closest match to its audio *)

Section Replay.
Import PyStr Float64 AppleTTS.

Lemma find_sample_by_id_Some samples name s :
  find_sample_by_id samples name = Some s ->
  s ∈ samples /\ utterance_name s = name.
Proof.
  induction samples as [|x l IH]; [done|]. cbn [find_sample_by_id].
  case_bool_decide as Hx.
  - intros [= ->]. split; [apply list_elem_of_here | done].
  - intros [Hs Hn]%IH. split; [by apply list_elem_of_further | done].
Qed.

Lemma find_sample_by_id_elem samples r :
  r ∈ samples -> exists s, find_sample_by_id samples (utterance_name r) = Some s.
Proof.
  induction samples as [|x l IH]; [by intros ?%elem_of_nil|].
  cbn [find_sample_by_id]. case_bool_decide as Hx; [by exists x|].
  intros [->|Hr]%elem_of_cons; [done | by apply IH].
Qed.

Lemma unique_names_inj samples s r :
  NoDup (utterance_name <$> samples) ->
  s ∈ samples -> r ∈ samples -> utterance_name s = utterance_name r -> s = r.
Proof.
  induction samples as [|x l IH]; [by intros _ ?%elem_of_nil|].
  rewrite fmap_cons. intros [Hx Hnd]%NoDup_cons.
  intros [->|Hs]%elem_of_cons [->|Hr]%elem_of_cons Heq; [done| | |by apply IH].
  - destruct Hx. rewrite Heq. by apply list_elem_of_fmap_2.
  - destruct Hx. rewrite <- Heq. by apply list_elem_of_fmap_2.
Qed.

(** X16.  The sample chosen by [find_closest_match] can be looked up again
    by its utterance name, as [main] does to play it: the lookup finds a
    sample with that name, and the very sample chosen when the utterance
    names of the corpus are pairwise distinct. *)
Theorem closest_match_lookup (samples : list sample) (q : pystr) (r : sample) :
  find_closest_match samples q = Some r ->
  exists s, find_sample_by_id samples (utterance_name r) = Some s
    /\ utterance_name s = utterance_name r
    /\ (NoDup (utterance_name <$> samples) -> s = r).
Proof.
  intros [Hr _]%returned_sample_cases.
  destruct (find_sample_by_id_elem samples r Hr) as [s Hs].
  exists s. split; [done|].
  apply find_sample_by_id_Some in Hs as [Hin Hn]. split; [done|].
  intros Hnd. by apply (unique_names_inj samples).
Qed.

Lemma closest_match_lookup_witness :
  exists s,
    find_sample_by_id corpus_greetings
      (utterance_name (mk_sample "u1" "good morning everyone")) = Some s
    /\ utterance_name s = utterance_name (mk_sample "u1" "good morning everyone")
    /\ (NoDup (utterance_name <$> corpus_greetings) ->
        s = mk_sample "u1" "good morning everyone").
Proof.
  apply (closest_match_lookup corpus_greetings (str "good morning")).
  by vm_compute.
Defined.

(** With a repeated utterance name the lookup can find another sample than
    the one chosen. *)
Example closest_match_lookup_repeated_name :
  let corpus := [mk_sample "u1" "good night"; mk_sample "u1" "good morning"] in
  find_closest_match corpus (str "good morning") = Some (mk_sample "u1" "good morning")
  /\ find_sample_by_id corpus (str "u1") = Some (mk_sample "u1" "good night").
Proof. split; by vm_compute. Qed.

End Replay.

(** ** Worked examples

    Values checked against CPython 3.11: the doctests of [difflib] and the
    examples of the specification. *)

Section Examples.
Import PyStr Float64 AppleTTS.

Example matching_blocks_abxcd :
  Difflib.get_matching_blocks (str "abxcd") (str "abcd")
    (Difflib.chain_b (str "abcd"))
  = [(0, 0, 2); (3, 2, 2); (5, 4, 0)].
Proof. by vm_compute. Qed.

Example longest_match_blank_abcd :
  Difflib.find_longest_match (str " abcd") (str "abcd abcd")
    (Difflib.chain_b (str "abcd abcd")) 0 5 0 9
  = (0, 4, 5).
Proof. by vm_compute. Qed.

(** [SequenceMatcher(None, "abcd", "bcde").ratio() == 0.75] *)
Example ratio_abcd_bcde :
  Difflib.ratio (str "abcd") (str "bcde") = S754_finite false 6755399441055744 (-53).
Proof. by vm_compute. Qed.

(** The float literals of the program. *)
Example float_literals :
  two = of_Z 2 /\ one = of_Z 1 /\ zero = of_Z 0 /\ c0_3 = div (of_Z 3) (of_Z 10).
Proof. by vm_compute. Qed.

(** The rounding of the score is the one of the doubles:
    [0.1 + 0.2 > 0.3]. *)
Example one_tenth_plus_two_tenths :
  ltb c0_3 (add (div (of_Z 1) (of_Z 10)) (div (of_Z 2) (of_Z 10))) = true.
Proof. by vm_compute. Qed.

Example end_to_end :
  find_closest_match corpus_greetings (str "good morning")
  = Some (mk_sample "u1" "good morning everyone").
Proof. by vm_compute. Qed.

Example threshold_boundary :
  find_closest_match [mk_sample "x" "xyz123"] (str "completely unrelated phrase")
    = None
  /\ find_closest_match [mk_sample "x" "xyz123"] (str "xyz123")
     = Some (mk_sample "x" "xyz123").
Proof. split; by vm_compute. Qed.

Example tie_break_stability :
  find_closest_match corpus_twins (str "good morning")
  = Some (mk_sample "A" "good morning").
Proof. by vm_compute. Qed.

Example split_on_hash :
  split_sep (str " # ") (str "g UH d # m AO r # n IH ng")
  = [str "g UH d"; str "m AO r"; str "n IH ng"].
Proof. by vm_compute. Qed.

(** [round(2.675, 2) == 2.67]: the double nearest to 2.675 lies below it. *)
Example round2_2_675 :
  round2 (div (of_Z 2675) (of_Z 1000)) = div (of_Z 267) (of_Z 100).
Proof. by vm_compute. Qed.

End Examples.

(** ** Worked examples of the command loop *)

Section CommandExamples.
Import Main.

Example dispatch_lines :
  dispatch (str "  Search  Good ") = Search (str " Good")
  /\ dispatch (str "play") = Closest (str "play")
  /\ dispatch (str "QUIT ") = Quit
  /\ dispatch (str "list  greeting ") = ListCategory (str "greeting")
  /\ dispatch (str "   ") = Ignore.
Proof. repeat split; by vm_compute. Qed.

Example join_category_names :
  join (str ", ") [str "greeting"; str "weather"] = str "greeting, weather".
Proof. by vm_compute. Qed.

End CommandExamples.
